(** * Posts and authors: the GraphQL resolvers of [schema.js] over the
      two [Map]s of [data.js]

    The development embeds the resolver functions of [schema.js]
    ([Query.posts], [Query.author], [Mutation.upvotePost], [Author.posts],
    [Post.author]) together with the JavaScript built-ins they call
    ([Number], [Map.prototype.get], [Map.prototype.values], [Array.from],
    [Array.prototype.filter], [===], [+=] on numbers), and the seed data of
    [data.js].

    JavaScript objects are references: the two [Map]s hold references to
    author and post objects living in a heap, [upvotePost] mutates a post
    object in place, and the arrays built by [Array.from] and [filter] are
    freshly allocated objects holding references to the very same posts. *)

From Stdlib Require Import ZArith Lia Ascii String DecimalString DecimalZ DecimalPos.
From stdpp Require Import gmap strings list fin_maps.

Local Open Scope Z_scope.

(** ** JavaScript numbers *)

Module JsNumber.

(** A JavaScript number is an IEEE 754 binary64 value.  It is represented
    here by the real number it denotes, in a canonical form:
    - [Int z] is the finite value [z], an integer ([Int 0] is [+0]);
    - [Frac m k] is the finite value [m / 2^k] with [m] odd: a value that
      is not an integer;
    - [NegZero] is [-0], [Inf false] is [+Infinity], [Inf true] is
      [-Infinity], and [NaN] is the single not-a-number value. *)
Inductive number : Type :=
  | NaN
  | Inf (neg : bool)
  | NegZero
  | Int (z : Z)
  | Frac (m : Z) (k : positive).

#[global] Instance number_eq_dec : EqDecision number.
Proof. solve_decision. Defined.

(** The largest count up to which every integer is a binary64 value. *)
Definition two53 : Z := 9007199254740992.

(** Number of trailing zero bits of a positive binary numeral. *)
Fixpoint trailing_zeros (p : positive) : Z :=
  match p with
  | xO p' => 1 + trailing_zeros p'
  | _ => 0
  end.

(** The number denoting [m * 2^k] for [m > 0], in canonical form. *)
Definition dyadic (m : Z) (k : Z) : number :=
  if 0 <=? k then Int (m * 2 ^ k)
  else
    let t := Z.min (- k) (match m with Zpos p => trailing_zeros p | _ => 0 end) in
    let m' := m / 2 ^ t in
    let k' := - k - t in
    match k' with
    | Zpos q => Frac m' q
    | _ => Int m'
    end.

(** [floor (log2 (n / d))] for [n, d > 0]. *)
Definition ratio_log2 (n d : Z) : Z :=
  let e0 := Z.log2 n - Z.log2 d in
  let above := if 0 <=? e0 then d * 2 ^ e0 <=? n else d <=? n * 2 ^ (- e0) in
  if above then e0 else e0 - 1.

(** Rounding to the nearest integer, ties to even, of [n / d]. *)
Definition round_half_even (n d : Z) : Z :=
  let f := n / d in
  let r := n mod d in
  match 2 * r ?= d with
  | Lt => f
  | Gt => f + 1
  | Eq => if Z.even f then f else f + 1
  end.

(** The binary64 value nearest to the positive rational [n / d]
    (round to nearest, ties to even; 53 significant bits, least exponent
    [-1074], overflow to [+Infinity] from [2^1024]). *)
Definition round_ratio (n d : Z) : number :=
  let e := ratio_log2 n d in
  let k := Z.max (e - 52) (-1074) in
  let m := if 0 <=? k then round_half_even n (d * 2 ^ k)
           else round_half_even (n * 2 ^ (- k)) d in
  if m =? 0 then Int 0
  else if (0 <=? k) && (2 ^ 1024 <=? m * 2 ^ k) then Inf false
  else dyadic m k.

(** Unary minus. *)
Definition negate (x : number) : number :=
  match x with
  | NaN => NaN
  | Inf b => Inf (negb b)
  | NegZero => Int 0
  | Int 0 => NegZero
  | Int z => Int (- z)
  | Frac m k => Frac (- m) k
  end.

(** The binary64 value nearest to the rational [n / d], [d > 0]; an exact
    zero is [+0]. *)
Definition round_signed (n d : Z) : number :=
  match n with
  | Z0 => Int 0
  | Zpos _ => round_ratio n d
  | Zneg _ => negate (round_ratio (- n) d)
  end.

(** The exact value of a finite number as numerator and denominator. *)
Definition to_ratio (x : number) : option (Z * Z) :=
  match x with
  | Int z => Some (z, 1)
  | NegZero => Some (0, 1)
  | Frac m k => Some (m, 2 ^ Zpos k)
  | _ => None
  end.

Definition is_zero (x : number) : bool :=
  match x with
  | Int 0 | NegZero => true
  | _ => false
  end.

(** [Number::add], the [+] of two numbers. *)
Definition add (x y : number) : number :=
  match x, y with
  | NaN, _ | _, NaN => NaN
  | Inf a, Inf b => if Bool.eqb a b then Inf a else NaN
  | Inf a, _ => Inf a
  | _, Inf b => Inf b
  | NegZero, NegZero => NegZero
  | _, _ =>
      match to_ratio x, to_ratio y with
      | Some (n1, d1), Some (n2, d2) => round_signed (n1 * d2 + n2 * d1) (d1 * d2)
      | _, _ => NaN
      end
  end.

(** [Number::equal], the [===] of two numbers: [NaN] differs from itself and
    the two zeros are equal. *)
Definition strict_equal (x y : number) : bool :=
  match x, y with
  | NaN, _ | _, NaN => false
  | _, _ => (is_zero x && is_zero y) || bool_decide (x = y)
  end.

(** [SameValueZero], the key comparison of [Map]: as [===] but [NaN] equals
    itself. *)
Definition same_value_zero (x y : number) : bool :=
  (is_zero x && is_zero y) || bool_decide (x = y).

(** The integer a number denotes, when it denotes one. *)
Definition to_Z (x : number) : option Z :=
  match x with
  | Int z => Some z
  | NegZero => Some 0
  | _ => None
  end.

End JsNumber.
Export JsNumber.

(** ** JavaScript values and the [Number] conversion *)

(** A JavaScript string is a sequence of UTF-16 code units; [string] holds
    the code units below 256, which covers every string of this program
    and every numeric literal. *)

(** The primitive values a resolver argument of GraphQL type [ID] can be
    (a string or a number), with the other primitives on which [Number] is
    defined by a table. *)
Inductive jsval : Type :=
  | JUndefined
  | JNull
  | JBool (b : bool)
  | JNum (n : number)
  | JStr (s : string).

#[global] Instance jsval_eq_dec : EqDecision jsval.
Proof. solve_decision. Defined.

Module StringToNumber.

(** [StrWhiteSpaceChar]: TAB, LF, VT, FF, CR, SP and NBSP. *)
Definition is_white_space (c : ascii) : bool :=
  let n := Z.of_nat (nat_of_ascii c) in
  ((9 <=? n) && (n <=? 13)) || (n =? 32) || (n =? 160).

Fixpoint trim_left (s : string) : string :=
  match s with
  | String c s' => if is_white_space c then trim_left s' else s
  | EmptyString => EmptyString
  end.

Fixpoint trim_right (s : string) : string :=
  match s with
  | String c s' =>
      match trim_right s' with
      | EmptyString => if is_white_space c then EmptyString else String c EmptyString
      | t => String c t
      end
  | EmptyString => EmptyString
  end.

Definition trim (s : string) : string := trim_right (trim_left s).

(** The value of a digit in the given base (hexadecimal digits in either
    case), when the character is one. *)
Definition digit_value (base : Z) (c : ascii) : option Z :=
  let n := Z.of_nat (nat_of_ascii c) in
  let v := if (48 <=? n) && (n <=? 57) then n - 48
           else if (97 <=? n) && (n <=? 102) then n - 87
           else if (65 <=? n) && (n <=? 70) then n - 55
           else base in
  if v <? base then Some v else None.

(** Reads the longest run of digits at the head of [s]: the value of
    [acc] followed by these digits, how many were read, and the rest. *)
Fixpoint take_digits (base : Z) (s : string) (acc : Z) (cnt : Z) : Z * Z * string :=
  match s with
  | String c s' =>
      match digit_value base c with
      | Some v => take_digits base s' (base * acc + v) (cnt + 1)
      | None => (acc, cnt, s)
      end
  | EmptyString => (acc, cnt, s)
  end.

(** A run of at least one digit making up the whole of [s]. *)
Definition all_digits (base : Z) (s : string) : option Z :=
  match take_digits base s 0 0 with
  | (v, cnt, EmptyString) => if 0 <? cnt then Some v else None
  | _ => None
  end.

(** [ExponentPart] opt, up to the end of the string. *)
Definition exponent_part (s : string) : option Z :=
  match s with
  | EmptyString => Some 0
  | String c s' =>
      if bool_decide (c = "e"%char) || bool_decide (c = "E"%char) then
        match s' with
        | String "+" d => all_digits 10 d
        | String "-" d => Z.opp <$> all_digits 10 d
        | _ => all_digits 10 s'
        end
      else None
  end.

(** The number nearest to [m * 10^p], for [m >= 0]. *)
Definition round_decimal (m p : Z) : number :=
  if 0 <=? p then round_signed (m * 10 ^ p) 1 else round_signed m (10 ^ (- p)).

(** [StrUnsignedDecimalLiteral]: [Infinity], or digits with an optional
    fraction and an optional exponent, at least one digit. *)
Definition unsigned_decimal (s : string) : option number :=
  if bool_decide (s = "Infinity"%string) then Some (Inf false)
  else
    let '(ip, ic, r1) := take_digits 10 s 0 0 in
    let '(m, fc, r2) :=
      match r1 with
      | String "." r => take_digits 10 r ip 0
      | _ => (ip, 0, r1)
      end in
    if 0 <? ic + fc then
      match exponent_part r2 with
      | Some ex => Some (round_decimal m (ex - fc))
      | None => None
      end
    else None.

(** [NonDecimalIntegerLiteral]: [0x], [0o] or [0b] and digits, unsigned. *)
Definition non_decimal (s : string) : option number :=
  match s with
  | String "0" (String c d) =>
      let base :=
        if bool_decide (c = "x"%char) || bool_decide (c = "X"%char) then Some 16
        else if bool_decide (c = "o"%char) || bool_decide (c = "O"%char) then Some 8
        else if bool_decide (c = "b"%char) || bool_decide (c = "B"%char) then Some 2
        else None in
      match base with
      | Some b => (fun v => round_signed v 1) <$> all_digits b d
      | None => None
      end
  | _ => None
  end.

(** [StringToNumber]: the empty or blank string is [+0], a string that is
    not a [StringNumericLiteral] is [NaN]. *)
Definition string_to_number (s : string) : number :=
  let t := trim s in
  match t with
  | EmptyString => Int 0
  | String c u =>
      match non_decimal t with
      | Some n => n
      | None =>
          let r := if bool_decide (c = "+"%char) then unsigned_decimal u
                   else if bool_decide (c = "-"%char) then negate <$> unsigned_decimal u
                   else unsigned_decimal t in
          default NaN r
      end
  end.

End StringToNumber.

(** [Number(value)] on a primitive: [ToNumber]. *)
Definition ToNumber (v : jsval) : number :=
  match v with
  | JUndefined => NaN
  | JNull => Int 0
  | JBool b => if b then Int 1 else Int 0
  | JNum n => n
  | JStr s => StringToNumber.string_to_number s
  end.

(** The decimal numeral of an integer: what [String(n)] is for a number
    [n] that is an integer of magnitude at most [2^53]. *)
Definition decimal_string (z : Z) : string := NilZero.string_of_int (Z.to_int z).

(** ** The [String] conversion *)

Module NumberToString.

(** [num / den < 10^n], for [num, den > 0]. *)
Definition below_pow10 (num den n : Z) : bool :=
  if 0 <=? n then num <? den * 10 ^ n else num * 10 ^ (- n) <? den.

(** The first [n], counting up from the one given, with
    [num / den < 10^n]. *)
Fixpoint search_exponent (fuel : nat) (num den n : Z) : Z :=
  match fuel with
  | O => n
  | S fuel' =>
      if below_pow10 num den n then n else search_exponent fuel' num den (n + 1)
  end.

(** The [n] with [10^(n-1) <= num / den < 10^n]; the finite positive
    numbers lie between [10^-324] and [10^309]. *)
Definition decimal_exponent (num den : Z) : Z := search_exponent 640 num den (-330).

(** [(num / den) / 10^q] as a fraction of integers. *)
Definition scaled (num den q : Z) : Z * Z :=
  if 0 <=? q then (num, den * 10 ^ q) else (num * 10 ^ (- q), den).

(** The integer [s] of [k] digits for which [s * 10^(n-k)] is nearest to
    [num / den], when that value converts back to the number [x]: one of
    the two integers around [(num / den) / 10^(n-k)], the nearer one (the
    even one of two equally near) when both convert back to [x].  The
    result is [(s, k, n)], with [10^k] written as [1] with one digit and
    [n + 1]. *)
Definition candidate (x : number) (num den n k : Z) : option (Z * Z * Z) :=
  let '(N, D) := scaled num den (n - k) in
  let lo := N / D in
  let hi := lo + 1 in
  let ok_lo := bool_decide (StringToNumber.round_decimal lo (n - k) = x) in
  let ok_hi := bool_decide (StringToNumber.round_decimal hi (n - k) = x) in
  let pick_hi := if hi =? 10 ^ k then (1, 1, n + 1) else (hi, k, n) in
  match ok_lo, ok_hi with
  | true, true =>
      match 2 * (N mod D) ?= D with
      | Lt => Some (lo, k, n)
      | Gt => Some pick_hi
      | Eq => if Z.even lo then Some (lo, k, n) else Some pick_hi
      end
  | true, false => Some (lo, k, n)
  | false, true => Some pick_hi
  | false, false => None
  end.

(** The digits [s], their count [k] and the exponent [n] of
    [Number::toString]: [k] is as small as possible with [s * 10^(n-k)]
    converting to [x]; seventeen digits always suffice. *)
Fixpoint shortest (fuel : nat) (x : number) (num den n k : Z) : Z * Z * Z :=
  match fuel with
  | O => let '(N, D) := scaled num den (n - k) in (N / D, k, n)
  | S fuel' =>
      match candidate x num den n k with
      | Some r => r
      | None => shortest fuel' x num den n (k + 1)
      end
  end.

Fixpoint zeros (j : nat) : string :=
  match j with
  | O => EmptyString
  | S j' => String "0" (zeros j')
  end.

(** The string of [Number::toString] for the digits [s], [k] of them, and
    the exponent [n]: the digits followed by zeros, the digits with a
    point inside, [0.] followed by zeros and the digits, or the
    exponential form. *)
Definition format (s k n : Z) : string :=
  let digits := decimal_string s in
  if (k <=? n) && (n <=? 21) then decimal_string (s * 10 ^ (n - k))
  else if (0 <? n) && (n <=? 21) then
    String.append (substring 0 (Z.to_nat n) digits)
      (String "." (substring (Z.to_nat n) (Z.to_nat (k - n)) digits))
  else if (-6 <? n) && (n <=? 0) then
    String.append "0." (String.append (zeros (Z.to_nat (- n))) digits)
  else
    let e := n - 1 in
    let exponent :=
      String "e" (String (if e <? 0 then "-"%char else "+"%char) (decimal_string (Z.abs e))) in
    if k =? 1 then String.append digits exponent
    else String.append (substring 0 1 digits)
           (String "." (String.append (substring 1 (Z.to_nat (k - 1)) digits) exponent)).

(** The string of the positive finite number [x], whose value is
    [num / den]. *)
Definition positive_to_string (x : number) (num den : Z) : string :=
  let '(s, k, n) := shortest 17 x num den (decimal_exponent num den) 1 in
  format s k n.

(** [Number::toString] in base 10. *)
Definition number_to_string (x : number) : string :=
  match x with
  | NaN => "NaN"
  | Inf b => if b then "-Infinity" else "Infinity"
  | NegZero => "0"
  | Int Z0 => "0"
  | Int (Zpos p) => positive_to_string x (Zpos p) 1
  | Int (Zneg p) => String "-" (positive_to_string (Int (Zpos p)) (Zpos p) 1)
  | Frac (Zneg q) k =>
      String "-" (positive_to_string (Frac (Zpos q) k) (Zpos q) (2 ^ Zpos k))
  | Frac m k => positive_to_string x m (2 ^ Zpos k)
  end.

End NumberToString.

(** [String(value)] on a primitive, as a template literal converts the
    value it interpolates: [ToString]. *)
Definition ToString (v : jsval) : string :=
  match v with
  | JUndefined => "undefined"
  | JNull => "null"
  | JBool b => if b then "true" else "false"
  | JNum n => NumberToString.number_to_string n
  | JStr s => s
  end.

(** ** Decimal numerals as strings *)



Fixpoint string_forall (P : ascii → bool) (s : string) : bool :=
  match s with
  | EmptyString => true
  | String c s' => P c && string_forall P s'
  end.

(** ** Objects, the heap and the two [Map]s of [data.js] *)

(** A reference to an object of the heap. *)
Abbreviation loc := positive.

(** The author objects of [data.js]: [{ id, firstName, lastName }]. *)
Module AuthorObject.
Record t : Type := make { id : number; firstName : string; lastName : string }.
End AuthorObject.

(** The post objects of [data.js]: [{ id, authorId, title, votes }]. *)
Module PostObject.
Record t : Type := make { id : number; authorId : number; title : string; votes : number }.

(** The object after the assignment [post.votes = v]. *)
Definition set_votes (v : number) (p : t) : t :=
  {| id := id p; authorId := authorId p; title := title p; votes := v |}.
End PostObject.

#[global] Instance author_object_eq_dec : EqDecision AuthorObject.t.
Proof. solve_decision. Defined.
#[global] Instance post_object_eq_dec : EqDecision PostObject.t.
Proof. solve_decision. Defined.

(** A [Map] with number keys: its entries in insertion order.  The keys of
    a [Map] are pairwise different under [SameValueZero]. *)
Module JsMap.

(** [Map.prototype.get]: the value of the entry whose key is the same as
    [k] under [SameValueZero], [None] standing for [undefined]. *)
Fixpoint get {V : Type} (m : list (number * V)) (k : number) : option V :=
  match m with
  | [] => None
  | (k', v) :: m' => if same_value_zero k' k then Some v else get m' k
  end.

(** [Map.prototype.values], read to its end: the values in insertion
    order. *)
Definition values {V : Type} (m : list (number * V)) : list V := m.*2.

(** No two entries have the same key. *)
Definition unique_keys {V : Type} (m : list (number * V)) : Prop :=
  ∀ i j e1 e2, m !! i = Some e1 → m !! j = Some e2 →
    same_value_zero e1.1 e2.1 = true → i = j.

End JsMap.

(** The state of the program: the module-level [authors] and [posts] maps
    of [data.js], whose values are references, and the objects these and
    the resolvers' arrays are. *)
Record Store : Type := mkStore {
  authors : list (number * loc);
  posts : list (number * loc);
  author_heap : gmap loc AuthorObject.t;
  post_heap : gmap loc PostObject.t;
  array_heap : gmap loc (list loc);
}.

(** The store of [data.js] when the module has been loaded. *)
Definition seed : Store :=
  {| authors := [ (Int 1, 1%positive); (Int 2, 2%positive); (Int 3, 3%positive) ];
     posts := [ (Int 1, 1%positive); (Int 2, 2%positive);
                (Int 3, 3%positive); (Int 4, 4%positive) ];
     author_heap := list_to_map
       [ (1%positive, AuthorObject.make (Int 1) "Tom" "Coleman");
         (2%positive, AuthorObject.make (Int 2) "Sashko" "Stubailo");
         (3%positive, AuthorObject.make (Int 3) "Mikhail" "Novikov") ];
     post_heap := list_to_map
       [ (1%positive, PostObject.make (Int 1) (Int 1) "Introduction to GraphQL" (Int 2));
         (2%positive, PostObject.make (Int 2) (Int 2) "Welcome to Meteor" (Int 3));
         (3%positive, PostObject.make (Int 3) (Int 2) "Advanced GraphQL" (Int 1));
         (4%positive, PostObject.make (Int 4) (Int 3) "Launchpad is Cool" (Int 7)) ];
     array_heap := ∅ |}.

(** ** The resolvers of [schema.js] *)

(** The value of [new Error(`...${id}...`)]: the text before the
    interpolated value, the value, and the text after it. *)
Record Error : Type := mkError { before : string; interpolated : jsval; after : string }.

#[global] Instance Error_eq_dec : EqDecision Error.
Proof. solve_decision. Defined.

(** How a resolver call completes: it returns a value or throws. *)
Inductive completion (A : Type) : Type :=
  | Return (a : A)
  | Throw (e : Error).
Arguments Return {A} a.
Arguments Throw {A} e.

(** The error of [Query.author] for an absent author. *)
Definition AuthorNotFound (id : jsval) : Error :=
  mkError "Oops! Author with ID " id " not found.".

(** The error of [Mutation.upvotePost] for an absent post. *)
Definition PostNotFound (postId : jsval) : Error :=
  mkError "Post with ID " postId " not found.".

(** The [message] of the error: the template literal evaluated. *)
Definition message (e : Error) : string :=
  String.append (before e) (String.append (ToString (interpolated e)) (after e)).

(** Allocation of a new array holding [xs]: a reference that no array of
    the heap has, and the store with the array at it. *)
Definition new_array (xs : list loc) (s : Store) : loc * Store :=
  let a := fresh (dom (array_heap s)) in
  (a, {| authors := authors s; posts := posts s;
         author_heap := author_heap s; post_heap := post_heap s;
         array_heap := <[a := xs]> (array_heap s) |}).

(** [Array.from(iterable)] on the values of a map. *)
Definition array_from (xs : list loc) (s : Store) : loc * Store := new_array xs s.

(** [array.filter(f)]: a new array of the elements of the array at [a]
    that [f] accepts, in their order. *)
Definition array_filter (f : loc → bool) (a : loc) (s : Store) : loc * Store :=
  new_array (List.filter f (default [] (array_heap s !! a))) s.

Module Query.

(** [posts: () => Array.from(posts.values())] *)
Definition posts (s : Store) : loc * Store :=
  array_from (JsMap.values (posts s)) s.

(** [author: (_, { id }) => { const author = authors.get(Number(id));
      if (!author) throw new Error(...); return author; }] *)
Definition author (id : jsval) (s : Store) : completion loc * Store :=
  match JsMap.get (authors s) (ToNumber id) with
  | None => (Throw (AuthorNotFound id), s)
  | Some author => (Return author, s)
  end.

End Query.

Module Mutation.

(** [upvotePost: (_, { postId }) => { const post = posts.get(Number(postId));
      if (!post) throw new Error(...); post.votes += 1; return post; }] *)
Definition upvotePost (postId : jsval) (s : Store) : completion loc * Store :=
  match JsMap.get (posts s) (ToNumber postId) with
  | None => (Throw (PostNotFound postId), s)
  | Some post =>
      (Return post,
       {| authors := authors s; posts := posts s;
          author_heap := author_heap s;
          post_heap :=
            alter (λ p, PostObject.set_votes (add (PostObject.votes p) (Int 1)) p)
                  post (post_heap s);
          array_heap := array_heap s |})
  end.

End Mutation.

Module Author.

(** [posts: (author) => Array.from(posts.values())
      .filter((post) => post.authorId === author.id)]; of the parent
    object only its [id] is read. *)
Definition posts (author : AuthorObject.t) (s : Store) : loc * Store :=
  let '(all, s1) := array_from (JsMap.values (posts s)) s in
  array_filter
    (λ post, match post_heap s1 !! post with
             | Some p => strict_equal (PostObject.authorId p) (AuthorObject.id author)
             | None => false
             end)
    all s1.

End Author.

Module Post.

(** [author: (post) => authors.get(post.authorId)]; of the parent object
    only its [authorId] is read, and the store is left as it is. *)
Definition author (post : PostObject.t) (s : Store) : option loc :=
  JsMap.get (authors s) (PostObject.authorId post).

End Post.

(** ** Requests and reachable stores *)

(** A resolver call made by the GraphQL engine. *)
Inductive Call : Type :=
  | CallQueryPosts
  | CallQueryAuthor (id : jsval)
  | CallUpvotePost (postId : jsval)
  | CallAuthorPosts (author : AuthorObject.t)
  | CallPostAuthor (post : PostObject.t).

(** The store a call leaves. *)
Definition call (c : Call) (s : Store) : Store :=
  match c with
  | CallQueryPosts => (Query.posts s).2
  | CallQueryAuthor id => (Query.author id s).2
  | CallUpvotePost postId => (Mutation.upvotePost postId s).2
  | CallAuthorPosts author => (Author.posts author s).2
  | CallPostAuthor _ => s
  end.

(** The store after a sequence of calls, first call first. *)
Definition run (cs : list Call) (s : Store) : Store := foldl (λ s c, call c s) s cs.

(** The stores the program can be in. *)
Definition reachable (s : Store) : Prop := ∃ cs, s = run cs seed.

(** [upvotePost(postId)] called [n] times in sequence. *)
Definition upvote_times (n : N) (postId : jsval) (s : Store) : Store :=
  N.iter n (λ s, (Mutation.upvotePost postId s).2) s.

(** ** The data model as a store invariant *)

(** The two maps have unique keys; every entry's value is an object of
    the heap whose [id] is the entry's key, an integer. *)
Record store_ok (s : Store) : Prop := mk_store_ok {
  ok_authors_unique : JsMap.unique_keys (authors s);
  ok_posts_unique : JsMap.unique_keys (posts s);
  ok_authors : ∀ k l, (k, l) ∈ authors s →
    ∃ a, author_heap s !! l = Some a ∧ AuthorObject.id a = k ∧ is_Some (to_Z k);
  ok_posts : ∀ k l, (k, l) ∈ posts s →
    ∃ p, post_heap s !! l = Some p ∧ PostObject.id p = k ∧ is_Some (to_Z k);
}.

(** The author store has the author object [a], at [l], and its [id]
    equals the number [n]. *)
Definition has_author (s : Store) (n : number) (l : loc) (a : AuthorObject.t) : Prop :=
  l ∈ JsMap.values (authors s) ∧ author_heap s !! l = Some a ∧
  strict_equal (AuthorObject.id a) n = true.

(** The post store has the post object [p], at [l], and its [id] equals
    the number [n]. *)
Definition has_post (s : Store) (n : number) (l : loc) (p : PostObject.t) : Prop :=
  l ∈ JsMap.values (posts s) ∧ post_heap s !! l = Some p ∧
  strict_equal (PostObject.id p) n = true.

(** Every post's [authorId] equals the [id] of an author of the author
    store. *)
Definition referential_integrity (s : Store) : Prop :=
  ∀ l p, l ∈ JsMap.values (posts s) → post_heap s !! l = Some p →
    ∃ l' a, has_author s (PostObject.authorId p) l' a.

(** ** What calls keep, and the specification's own wording *)

(** What a call leaves of the store: the two maps and the author objects
    as they were, and every post object as it was but for its votes. *)
Definition same_but_votes s s' : Prop :=
  authors s' = authors s ∧ posts s' = posts s ∧ author_heap s' = author_heap s ∧
  ∀ l, (post_heap s !! l = None ∧ post_heap s' !! l = None) ∨
       ∃ p v, post_heap s !! l = Some p ∧ post_heap s' !! l = Some (PostObject.set_votes v p).

(** The votes of a post object are an integer from 1 to [2^53]. *)
Definition votes_in_range (p : PostObject.t) : bool :=
  match PostObject.votes p with
  | Int v => (1 <=? v) && (v <=? two53)
  | _ => false
  end.

(** The posts of an author as the specification words them: the posts
    of the store, in insertion order, whose [authorId] equals the
    author's [id]. *)
Definition postsByAuthor (s : Store) (author : AuthorObject.t) : list loc :=
  List.filter
    (λ l, match post_heap s !! l with
          | Some p => strict_equal (PostObject.authorId p) (AuthorObject.id author)
          | None => false
          end)
    (JsMap.values (posts s)).

(** Two outcomes that are the same but for the id the error echoes: both
    calls return the same value and leave the same store, or both throw,
    each its own error, and leave the same store. *)
Definition same_behaviour {A : Type} (r1 r2 : completion A * Store)
    (e1 e2 : Error) : Prop :=
  (∃ a s', r1 = (Return a, s') ∧ r2 = (Return a, s')) ∨
  (∃ s', r1 = (Throw e1, s') ∧ r2 = (Throw e2, s')).

(** ** Facts about numbers *)

Section number_facts.

Lemma trailing_zeros_nonneg p : 0 ≤ trailing_zeros p.
Proof. induction p; simpl; lia. Qed.

Lemma trailing_zeros_divide p j :
  0 ≤ j → (2 ^ j | Zpos p) → j ≤ trailing_zeros p.
Proof.
  revert j. induction p as [p IH | p IH |]; intros j Hj Hdiv; simpl.
  - destruct (decide (j = 0)) as [->|]; [lia|].
    exfalso. destruct Hdiv as [q Hq].
    replace (2 ^ j) with (2 * 2 ^ (j - 1)) in Hq
      by (rewrite <- Z.pow_succ_r by lia; f_equal; lia).
    lia.
  - destruct (decide (j = 0)) as [->|]; [pose proof (trailing_zeros_nonneg p); lia|].
    enough (j - 1 ≤ trailing_zeros p) by lia.
    apply IH; [lia|]. destruct Hdiv as [q Hq]. exists q.
    replace (2 ^ j) with (2 * 2 ^ (j - 1)) in Hq
      by (rewrite <- Z.pow_succ_r by lia; f_equal; lia).
    lia.
  - destruct (decide (j = 0)) as [->|]; [lia|].
    exfalso. destruct Hdiv as [q Hq].
    replace (2 ^ j) with (2 * 2 ^ (j - 1)) in Hq
      by (rewrite <- Z.pow_succ_r by lia; f_equal; lia).
    lia.
Qed.

Lemma round_half_even_exact n : round_half_even n 1 = n.
Proof.
  unfold round_half_even. rewrite Z.mod_1_r, Z.div_1_r. reflexivity.
Qed.

Lemma dyadic_scaled n j : 0 < n → 0 < j → dyadic (n * 2 ^ j) (- j) = Int n.
Proof.
  intros Hn Hj. unfold dyadic.
  destruct (Z.leb_spec 0 (- j)); [lia|].
  assert (Hpos : 0 < n * 2 ^ j) by (apply Z.mul_pos_pos; [lia | apply Z.pow_pos_nonneg; lia]).
  destruct (n * 2 ^ j) as [|p|p] eqn:Hp; [lia | | lia].
  assert (j ≤ trailing_zeros p).
  { apply trailing_zeros_divide; [lia|]. exists n. lia. }
  rewrite Z.opp_involutive, Z.min_l by lia.
  replace (j - j) with 0 by lia.
  rewrite <- Hp, Z.div_mul by (apply Z.pow_nonzero; lia). reflexivity.
Qed.

(** An integer below [2^53] is a binary64 value: rounding leaves it. *)
Lemma round_ratio_small n : 0 < n → n < two53 → round_ratio n 1 = Int n.
Proof.
  intros Hn Hlt. unfold round_ratio, ratio_log2.
  change (Z.log2 1) with 0. rewrite Z.sub_0_r.
  pose proof (Z.log2_nonneg n) as Hl0.
  pose proof (Z.log2_spec n Hn) as [Hlo Hhi].
  assert (Z.log2 n < 53) as Hl53.
  { apply Z.log2_lt_pow2; [lia|]. exact Hlt. }
  destruct (Z.leb_spec 0 (Z.log2 n)); [|lia].
  rewrite Z.mul_1_l.
  destruct (Z.leb_spec (2 ^ Z.log2 n) n); [|lia].
  rewrite Z.max_l by lia.
  destruct (Z.leb_spec 0 (Z.log2 n - 52)) as [Hk|Hk].
  - replace (Z.log2 n - 52) with 0 by lia.
    change (1 * 2 ^ 0) with 1. rewrite round_half_even_exact.
    destruct (Z.eqb_spec n 0); [lia|].
    simpl andb.
    destruct (Z.leb_spec (2 ^ 1024) (n * 2 ^ 0)) as [Hbig|_].
    + exfalso. rewrite Z.pow_0_r, Z.mul_1_r in Hbig.
      assert (two53 < 2 ^ 1024) by (apply Z.ltb_lt; vm_compute; reflexivity). lia.
    + unfold dyadic. simpl. f_equal. lia.
  - rewrite round_half_even_exact.
    assert (0 < 2 ^ (- (Z.log2 n - 52))) by (apply Z.pow_pos_nonneg; lia).
    destruct (Z.eqb_spec (n * 2 ^ (- (Z.log2 n - 52))) 0); [nia|].
    simpl andb.
    replace (Z.log2 n - 52) with (- (- (Z.log2 n - 52))) at 2 by lia.
    apply dyadic_scaled; lia.
Qed.

Lemma round_signed_small z : - two53 < z → z < two53 → round_signed z 1 = Int z.
Proof.
  intros Hlo Hhi. destruct z as [|p|p]; simpl.
  - reflexivity.
  - apply round_ratio_small; lia.
  - rewrite round_ratio_small by lia. reflexivity.
Qed.

Lemma round_signed_two53 : round_signed two53 1 = Int two53.
Proof. vm_compute. reflexivity. Qed.

Lemma round_signed_neg_two53 : round_signed (- two53) 1 = Int (- two53).
Proof. vm_compute. reflexivity. Qed.

(** Every integer up to [2^53] in magnitude is a binary64 value. *)
Lemma round_signed_safe z : - two53 ≤ z → z ≤ two53 → round_signed z 1 = Int z.
Proof.
  intros Hlo Hhi.
  destruct (decide (z = two53)) as [->|]; [apply round_signed_two53|].
  destruct (decide (z = - two53)) as [->|]; [apply round_signed_neg_two53|].
  apply round_signed_small; lia.
Qed.

Lemma add_Int a b : add (Int a) (Int b) = round_signed (a + b) 1.
Proof. unfold add; simpl. f_equal; lia. Qed.

(** [v + 1] is exact below [2^53]. *)
Lemma add_one_exact v :
  - two53 ≤ v → v < two53 → add (Int v) (Int 1) = Int (v + 1).
Proof. intros. rewrite add_Int. apply round_signed_safe; lia. Qed.

(** At [2^53] the sum [2^53 + 1] is halfway between two binary64 values
    and rounds back to [2^53]. *)
Lemma add_one_two53 : add (Int two53) (Int 1) = Int two53.
Proof. vm_compute. reflexivity. Qed.

Lemma add_one_saturating v :
  - two53 ≤ v → v ≤ two53 → add (Int v) (Int 1) = Int (Z.min (v + 1) two53).
Proof.
  intros Hlo Hhi. destruct (decide (v = two53)) as [->|].
  - rewrite add_one_two53. reflexivity.
  - rewrite add_one_exact by lia. f_equal. lia.
Qed.

Lemma same_value_zero_refl x : same_value_zero x x = true.
Proof. unfold same_value_zero. rewrite bool_decide_eq_true_2 by done. apply orb_true_r. Qed.

Lemma same_value_zero_sym x y : same_value_zero x y = same_value_zero y x.
Proof.
  unfold same_value_zero. rewrite (andb_comm (is_zero x)).
  f_equal. apply bool_decide_ext. split; congruence.
Qed.

Lemma same_value_zero_trans x y z :
  same_value_zero x y = true → same_value_zero y z = true → same_value_zero x z = true.
Proof.
  unfold same_value_zero. intros H1 H2.
  apply orb_true_iff in H1 as [H1|H1]; apply orb_true_iff in H2 as [H2|H2];
    apply orb_true_iff.
  - left. apply andb_true_iff in H1 as [? ?], H2 as [? ?]. apply andb_true_iff; done.
  - apply bool_decide_eq_true_1 in H2 as <-. left; done.
  - apply bool_decide_eq_true_1 in H1 as ->. left; done.
  - apply bool_decide_eq_true_1 in H1 as ->. right; done.
Qed.

(** On a number that is not [NaN], [===] and [SameValueZero] agree. *)
Lemma strict_equal_same_value_zero x y :
  x ≠ NaN → strict_equal x y = same_value_zero x y.
Proof.
  intros Hx. unfold strict_equal, same_value_zero.
  destruct x as [| | |[]|]; try done; destruct y; done.
Qed.

Lemma to_Z_not_NaN x : is_Some (to_Z x) → x ≠ NaN.
Proof. intros [z Hz] ->. discriminate. Qed.

(** Two numbers denoting integers are equal under [SameValueZero] exactly
    when they denote the same integer. *)
Lemma same_value_zero_to_Z x y a :
  to_Z x = Some a → same_value_zero x y = true ↔ to_Z y = Some a.
Proof.
  intros Hx. unfold same_value_zero. rewrite orb_true_iff, andb_true_iff, bool_decide_eq_true.
  destruct x as [| | |zx|]; try discriminate; simpl in Hx; simplify_eq.
  - split.
    + intros [[_ Hy]| <-]; [|done]. destruct y as [| | |[]|]; simpl in *; done.
    + destruct y as [| | |zy|]; simpl; intros ?; simplify_eq; auto.
  - split.
    + intros [[Ha Hy]| <-]; [|done].
      destruct a; try discriminate. destruct y as [| | |[]|]; simpl in *; done.
    + destruct y as [| | |zy|]; simpl; intros ?; simplify_eq; auto.
Qed.

End number_facts.

(** ** Facts about [Number] on decimal strings *)

Section decimal_strings.
Import StringToNumber.
















End decimal_strings.

(** ** Facts about [Map] *)

Section map_facts.
Context {V : Type}.
Implicit Types (m : list (number * V)) (k n : number) (v : V).

Lemma get_Some_elem m n v :
  JsMap.get m n = Some v → ∃ k, (k, v) ∈ m ∧ same_value_zero k n = true.
Proof.
  induction m as [|[k' v'] m IH]; simpl; [done|].
  destruct (same_value_zero k' n) eqn:Hk.
  - intros [= ->]. exists k'. split; [left | done].
  - intros (k & Hin & Hsv)%IH. exists k. split; [right; done | done].
Qed.

Lemma get_None m n :
  JsMap.get m n = None ↔ ∀ k v, (k, v) ∈ m → same_value_zero k n = false.
Proof.
  induction m as [|[k' v'] m IH]; simpl.
  - split; [|done]. intros _ k v Hin. inversion Hin.
  - destruct (same_value_zero k' n) eqn:Hk.
    + split; [done|]. intros H. specialize (H k' v' ltac:(left)). congruence.
    + rewrite IH. split.
      * intros H k v Hin. apply elem_of_cons in Hin as [[= -> ->]|Hin]; eauto.
      * intros H k v Hin. apply (H k v). right; done.
Qed.

Lemma unique_keys_tail k v m : JsMap.unique_keys ((k, v) :: m) → JsMap.unique_keys m.
Proof.
  intros Hu i j e1 e2 H1 H2 Hsv.
  specialize (Hu (S i) (S j) e1 e2 H1 H2 Hsv). lia.
Qed.

(** With unique keys, [get] finds the one entry whose key is [n]. *)
Lemma get_unique m n k v :
  JsMap.unique_keys m → (k, v) ∈ m → same_value_zero k n = true →
  JsMap.get m n = Some v.
Proof.
  induction m as [|[k' v'] m IH]; intros Hu Hin Hsv; [inversion Hin|].
  simpl. destruct (same_value_zero k' n) eqn:Hk.
  - apply list_elem_of_lookup in Hin as [j Hj].
    assert (0%nat = j) as <-.
    { apply (Hu 0%nat j (k', v') (k, v)); [done | done |]. simpl.
      eapply same_value_zero_trans; [exact Hk|].
      rewrite same_value_zero_sym. exact Hsv. }
    simpl in Hj. congruence.
  - apply elem_of_cons in Hin as [[= -> ->]|Hin]; [congruence|].
    apply IH; [eapply unique_keys_tail; exact Hu | done | done].
Qed.

Lemma values_elem m v : v ∈ JsMap.values m ↔ ∃ k, (k, v) ∈ m.
Proof.
  unfold JsMap.values. rewrite list_elem_of_fmap. split.
  - intros [[k v'] [-> Hin]]. exists k. done.
  - intros [k Hin]. exists (k, v). done.
Qed.

End map_facts.

(** ** Facts about stores *)

Section store_facts.
Implicit Types (s : Store) (n : number) (l : loc).

(** In a store that meets the data model, a post with id [n] is present
    exactly when [posts.get(n)] finds it. *)
Lemma has_post_get s n l p :
  store_ok s →
  has_post s n l p ↔ JsMap.get (posts s) n = Some l ∧ post_heap s !! l = Some p.
Proof.
  intros Hok. split.
  - intros (Hin & Hp & Heq). split; [|done].
    apply values_elem in Hin as [k Hin].
    destruct (ok_posts s Hok k l Hin) as (p' & Hp' & Hid & Hint).
    simplify_eq.
    rewrite strict_equal_same_value_zero in Heq by (apply to_Z_not_NaN; done).
    eapply get_unique; [apply Hok | done | done].
  - intros [Hget Hp]. apply get_Some_elem in Hget as (k & Hin & Hsv).
    destruct (ok_posts s Hok k l Hin) as (p' & Hp' & Hid & Hint).
    simplify_eq. split; [apply values_elem; eauto|]. split; [done|].
    rewrite strict_equal_same_value_zero by (apply to_Z_not_NaN; done). done.
Qed.

Lemma has_author_get s n l a :
  store_ok s →
  has_author s n l a ↔ JsMap.get (authors s) n = Some l ∧ author_heap s !! l = Some a.
Proof.
  intros Hok. split.
  - intros (Hin & Ha & Heq). split; [|done].
    apply values_elem in Hin as [k Hin].
    destruct (ok_authors s Hok k l Hin) as (a' & Ha' & Hid & Hint).
    simplify_eq.
    rewrite strict_equal_same_value_zero in Heq by (apply to_Z_not_NaN; done).
    eapply get_unique; [apply Hok | done | done].
  - intros [Hget Ha]. apply get_Some_elem in Hget as (k & Hin & Hsv).
    destruct (ok_authors s Hok k l Hin) as (a' & Ha' & Hid & Hint).
    simplify_eq. split; [apply values_elem; eauto|]. split; [done|].
    rewrite strict_equal_same_value_zero by (apply to_Z_not_NaN; done). done.
Qed.

(** A reference found in the [posts] map is a post object. *)
Lemma get_post_object s n l :
  store_ok s → JsMap.get (posts s) n = Some l → ∃ p, has_post s n l p.
Proof.
  intros Hok Hget. pose proof Hget as (k & Hin & _)%get_Some_elem.
  destruct (ok_posts s Hok k l Hin) as (p & Hp & _).
  exists p. apply has_post_get; done.
Qed.

Lemma get_author_object s n l :
  store_ok s → JsMap.get (authors s) n = Some l → ∃ a, has_author s n l a.
Proof.
  intros Hok Hget. pose proof Hget as (k & Hin & _)%get_Some_elem.
  destruct (ok_authors s Hok k l Hin) as (a & Ha & _).
  exists a. apply has_author_get; done.
Qed.


Lemma set_votes_same p : PostObject.set_votes (PostObject.votes p) p = p.
Proof. destruct p; reflexivity. Qed.

Lemma set_votes_twice v w p :
  PostObject.set_votes v (PostObject.set_votes w p) = PostObject.set_votes v p.
Proof. reflexivity. Qed.

Lemma same_but_votes_posts s s' :
  authors s' = authors s → posts s' = posts s → author_heap s' = author_heap s →
  post_heap s' = post_heap s → same_but_votes s s'.
Proof.
  intros Ha Hp Hah Hph. repeat split; try done. intros l. rewrite Hph.
  destruct (post_heap s !! l) as [p|] eqn:Hpl; [right|left; done].
  exists p, (PostObject.votes p). rewrite set_votes_same. done.
Qed.

Lemma same_but_votes_refl s : same_but_votes s s.
Proof. apply same_but_votes_posts; reflexivity. Qed.

Lemma same_but_votes_trans s1 s2 s3 :
  same_but_votes s1 s2 → same_but_votes s2 s3 → same_but_votes s1 s3.
Proof.
  intros (Ha & Hp & Hah & H12) (Ha' & Hp' & Hah' & H23).
  repeat split; try congruence.
  intros l. destruct (H12 l) as [[? ?]|(p & v & ? & Hp2)];
    destruct (H23 l) as [[? ?]|(p' & v' & ? & ?)]; simplify_eq; [left; done|].
  right. exists p, v'. done.
Qed.

Lemma new_array_same xs s : same_but_votes s (new_array xs s).2.
Proof. apply same_but_votes_posts; reflexivity. Qed.

Lemma upvotePost_same postId s : same_but_votes s (Mutation.upvotePost postId s).2.
Proof.
  unfold Mutation.upvotePost.
  destruct (JsMap.get (posts s) (ToNumber postId)) as [l|]; [|apply same_but_votes_refl].
  repeat split. intros l'. simpl.
  destruct (post_heap s !! l') as [p|] eqn:Hp.
  - right. destruct (decide (l = l')) as [->|Hne].
    + exists p, (add (PostObject.votes p) (Int 1)).
      rewrite lookup_alter_eq, Hp. done.
    + exists p, (PostObject.votes p).
      rewrite lookup_alter_ne, Hp, set_votes_same by done. done.
  - left. split; [done|].
    destruct (decide (l = l')) as [->|Hne].
    + rewrite lookup_alter_eq, Hp. done.
    + rewrite lookup_alter_ne by done. done.
Qed.

Lemma call_same c s : same_but_votes s (call c s).
Proof.
  destruct c; simpl.
  - apply new_array_same.
  - unfold Query.author. destruct (JsMap.get _ _); apply same_but_votes_refl.
  - apply upvotePost_same.
  - apply same_but_votes_posts; reflexivity.
  - apply same_but_votes_refl.
Qed.

Lemma run_snoc cs c s : run (cs ++ [c]) s = call c (run cs s).
Proof. unfold run. rewrite foldl_app. reflexivity. Qed.

Lemma run_same cs s : same_but_votes s (run cs s).
Proof.
  induction cs as [|c cs IH] using rev_ind; [apply same_but_votes_refl|].
  rewrite run_snoc. eapply same_but_votes_trans; [exact IH | apply call_same].
Qed.

Lemma store_ok_same s s' : same_but_votes s s' → store_ok s → store_ok s'.
Proof.
  intros (Ha & Hp & Hah & Hph) Hok. split.
  - rewrite Ha. apply Hok.
  - rewrite Hp. apply Hok.
  - rewrite Ha, Hah. apply Hok.
  - rewrite Hp. intros k l Hin.
    destruct (ok_posts s Hok k l Hin) as (p & Hpl & Hid & Hint).
    destruct (Hph l) as [[? ?]|(p' & v & ? & Hp')]; simplify_eq.
    exists (PostObject.set_votes v p). done.
Qed.

Lemma referential_integrity_same s s' :
  same_but_votes s s' → referential_integrity s → referential_integrity s'.
Proof.
  intros (Ha & Hp & Hah & Hph) Hri l p' Hin Hp'.
  rewrite Hp in Hin.
  destruct (Hph l) as [[? ?]|(p & v & Hpl & ?)]; simplify_eq.
  destruct (Hri l p Hin Hpl) as (l' & a & Hl' & Hal' & Heq).
  exists l', a. unfold has_author. rewrite Ha, Hah. done.
Qed.

Lemma seed_ok : store_ok seed.
Proof.
  split.
  - intros i j e1 e2 H1 H2 Hsv.
    destruct i as [|[|[|i]]], j as [|[|[|j]]]; simpl in *; simplify_eq; done.
  - intros i j e1 e2 H1 H2 Hsv.
    destruct i as [|[|[|[|i]]]], j as [|[|[|[|j]]]]; simpl in *; simplify_eq; done.
  - intros k l Hin. simpl in Hin.
    repeat (apply elem_of_cons in Hin as [[= -> ->]|Hin];
            [eexists; split; [vm_compute; reflexivity|split; [reflexivity|eexists; reflexivity]]|]).
    inversion Hin.
  - intros k l Hin. simpl in Hin.
    repeat (apply elem_of_cons in Hin as [[= -> ->]|Hin];
            [eexists; split; [vm_compute; reflexivity|split; [reflexivity|eexists; reflexivity]]|]).
    inversion Hin.
Qed.

Lemma seed_referential_integrity : referential_integrity seed.
Proof.
  intros l p Hin Hp. simpl in Hin.
  repeat (apply elem_of_cons in Hin as [->|Hin];
    [vm_compute in Hp; injection Hp as <-;
     eexists _, _; apply (has_author_get _ _ _ _ seed_ok);
     split; vm_compute; reflexivity|]).
  inversion Hin.
Qed.

Lemma reachable_ok s : reachable s → store_ok s.
Proof. intros [cs ->]. eapply store_ok_same; [apply run_same | apply seed_ok]. Qed.

Lemma reachable_seed : reachable seed.
Proof. exists []. reflexivity. Qed.

Lemma reachable_call c s : reachable s → reachable (call c s).
Proof. intros [cs ->]. exists (cs ++ [c]). rewrite run_snoc. reflexivity. Qed.

End store_facts.

(** ** Facts about [upvotePost] *)

Section upvote_facts.
Implicit Types (s : Store) (n : number) (l : loc).

(** The call on a present id: what it returns and what it leaves. *)
Lemma upvotePost_present s postId l p :
  store_ok s → has_post s (ToNumber postId) l p →
  ∃ s', Mutation.upvotePost postId s = (Return l, s') ∧
    post_heap s' !! l
      = Some (PostObject.set_votes (add (PostObject.votes p) (Int 1)) p) ∧
    (∀ l', l' ≠ l → post_heap s' !! l' = post_heap s !! l') ∧
    authors s' = authors s ∧ posts s' = posts s ∧
    author_heap s' = author_heap s ∧ array_heap s' = array_heap s.
Proof.
  intros Hok [Hget Hp]%has_post_get; [|done].
  unfold Mutation.upvotePost. rewrite Hget. eexists. split; [reflexivity|].
  simpl. split; [rewrite lookup_alter_eq, Hp; done|].
  split; [|done]. intros l' Hne. rewrite lookup_alter_ne; done.
Qed.

(** The call on an absent id. *)
Lemma upvotePost_absent s postId :
  JsMap.get (posts s) (ToNumber postId) = None →
  Mutation.upvotePost postId s = (Throw (PostNotFound postId), s).
Proof. intros Hget. unfold Mutation.upvotePost. rewrite Hget. reflexivity. Qed.

Lemma no_post_get s n :
  store_ok s → (∀ l p, ¬ has_post s n l p) → JsMap.get (posts s) n = None.
Proof.
  intros Hok Hno. destruct (JsMap.get (posts s) n) as [l|] eqn:Hget; [|done].
  destruct (get_post_object s n l Hok Hget) as [p Hp]. destruct (Hno l p Hp).
Qed.

Lemma no_author_get s n :
  store_ok s → (∀ l a, ¬ has_author s n l a) → JsMap.get (authors s) n = None.
Proof.
  intros Hok Hno. destruct (JsMap.get (authors s) n) as [l|] eqn:Hget; [|done].
  destruct (get_author_object s n l Hok Hget) as [a Ha]. destruct (Hno l a Ha).
Qed.

Lemma upvote_times_succ k postId s :
  upvote_times (N.succ k) postId s
  = (Mutation.upvotePost postId (upvote_times k postId s)).2.
Proof. unfold upvote_times. rewrite N.iter_succ. reflexivity. Qed.

Lemma upvote_times_same k postId s : same_but_votes s (upvote_times k postId s).
Proof.
  induction k as [|k IH] using N.peano_ind; [apply same_but_votes_refl|].
  rewrite upvote_times_succ.
  eapply same_but_votes_trans; [exact IH | apply upvotePost_same].
Qed.

(** The votes of a post after [k] calls: they grow by one per call up to
    [2^53] and stay there. *)
Lemma upvote_times_saturating s postId l p v k :
  store_ok s → has_post s (ToNumber postId) l p →
  PostObject.votes p = Int v → - two53 ≤ v → v ≤ two53 →
  has_post (upvote_times k postId s) (ToNumber postId) l
    (PostObject.set_votes (Int (Z.min (v + Z.of_N k) two53)) p).
Proof.
  intros Hok Hp Hv Hlo Hhi. induction k as [|k IH] using N.peano_ind.
  - unfold upvote_times. simpl. rewrite Z.add_0_r, Z.min_l by lia.
    rewrite <- Hv, set_votes_same. exact Hp.
  - rewrite upvote_times_succ.
    assert (store_ok (upvote_times k postId s)) as Hok'.
    { eapply store_ok_same; [apply upvote_times_same | done]. }
    destruct (upvotePost_present _ postId l _ Hok' IH)
      as (s' & Heq & Hl & _ & _ & Hposts & _).
    rewrite Heq. simpl.
    destruct IH as (Hin & _ & Hid).
    split; [rewrite Hposts; exact Hin|]. split; [|exact Hid].
    rewrite Hl. f_equal. simpl PostObject.votes.
    rewrite add_one_saturating by lia.
    rewrite set_votes_twice. f_equal. f_equal. lia.
Qed.

End upvote_facts.

(** ** Facts about the seed data *)

Section seed_facts.

Lemma reachable_maps s :
  reachable s →
  authors s = authors seed ∧ posts s = posts seed ∧ author_heap s = author_heap seed.
Proof. intros [cs ->]. destruct (run_same cs seed) as (? & ? & ? & _). done. Qed.

Lemma seed_posts_get n :
  (∀ z, z ∈ [1; 2; 3; 4] → strict_equal (Int z) n = false) →
  JsMap.get (posts seed) n = None.
Proof.
  intros Hn. apply get_None. intros k l Hin. simpl in Hin.
  repeat (apply elem_of_cons in Hin as [[= -> ->]|Hin];
          [rewrite <- strict_equal_same_value_zero by done; apply Hn; set_solver|]).
  inversion Hin.
Qed.

Lemma seed_authors_get n :
  (∀ z, z ∈ [1; 2; 3] → strict_equal (Int z) n = false) →
  JsMap.get (authors seed) n = None.
Proof.
  intros Hn. apply get_None. intros k l Hin. simpl in Hin.
  repeat (apply elem_of_cons in Hin as [[= -> ->]|Hin];
          [rewrite <- strict_equal_same_value_zero by done; apply Hn; set_solver|]).
  inversion Hin.
Qed.

(** The seed authors, by id. *)
Lemma seed_has_author z n :
  z ∈ [1; 2; 3] → strict_equal (Int z) n = true →
  ∃ l a, has_author seed n l a ∧ AuthorObject.id a = Int z.
Proof.
  intros Hz Hn.
  assert (∀ l a, (Int z, l) ∈ authors seed → author_heap seed !! l = Some a →
                 AuthorObject.id a = Int z →
                 ∃ l a, has_author seed n l a ∧ AuthorObject.id a = Int z) as Hex.
  { intros l a Hin Ha Hid. exists l, a. split; [|exact Hid].
    split; [apply values_elem; eauto|]. split; [exact Ha|]. rewrite Hid. exact Hn. }
  apply elem_of_cons in Hz as [->|Hz].
  { apply (Hex 1%positive (AuthorObject.make (Int 1) "Tom" "Coleman"));
      [simpl; set_solver | vm_compute; reflexivity | reflexivity]. }
  apply elem_of_cons in Hz as [->|Hz].
  { apply (Hex 2%positive (AuthorObject.make (Int 2) "Sashko" "Stubailo"));
      [simpl; set_solver | vm_compute; reflexivity | reflexivity]. }
  apply elem_of_cons in Hz as [->|Hz].
  { apply (Hex 3%positive (AuthorObject.make (Int 3) "Mikhail" "Novikov"));
      [simpl; set_solver | vm_compute; reflexivity | reflexivity]. }
  inversion Hz.
Qed.

Lemma reachable_upvote_times k postId : reachable (upvote_times k postId seed).
Proof.
  induction k as [|k IH] using N.peano_ind; [apply reachable_seed|].
  rewrite upvote_times_succ. apply (reachable_call (CallUpvotePost postId)), IH.
Qed.

Lemma call_votes_in_range c s :
  map_Forall (λ _ p, votes_in_range p = true) (post_heap s) →
  map_Forall (λ _ p, votes_in_range p = true) (post_heap (call c s)).
Proof.
  intros Hs. destruct c; cbn [call]; try exact Hs.
  - unfold Query.author. destruct (JsMap.get _ _); exact Hs.
  - unfold Mutation.upvotePost.
    destruct (JsMap.get (posts s) (ToNumber postId)) as [l|]; [|exact Hs].
    simpl. intros l' p'. destruct (decide (l = l')) as [->|Hne].
    + rewrite lookup_alter_eq. destruct (post_heap s !! l') as [p|] eqn:Hp; [|done].
      intros [= <-]. specialize (Hs l' p Hp). simpl in Hs.
      unfold votes_in_range in *. simpl.
      destruct (PostObject.votes p) as [| | |v|]; try discriminate.
      apply andb_true_iff in Hs as [H1 H2]. apply Z.leb_le in H1, H2.
      rewrite add_one_saturating by (unfold two53 in *; lia).
      apply andb_true_iff. split; apply Z.leb_le; unfold two53 in *; lia.
    + rewrite lookup_alter_ne by done. apply Hs.
Qed.

(** In every reachable store the votes of every post object are an
    integer from 1 to [2^53]. *)
Lemma reachable_votes_in_range s :
  reachable s → map_Forall (λ _ p, votes_in_range p = true) (post_heap s).
Proof.
  intros [cs ->]. induction cs as [|c cs IH] using rev_ind.
  - unfold run, seed; simpl.
    repeat (apply map_Forall_insert_2; [reflexivity|]). apply map_Forall_empty.
  - rewrite run_snoc. apply call_votes_in_range, IH.
Qed.

End seed_facts.

(** ** Facts about arrays *)

Section array_facts.

Lemma filter_sublist {A : Type} (f : A → bool) (xs : list A) :
  sublist (List.filter f xs) xs.
Proof.
  induction xs as [|x xs IH]; simpl; [constructor|].
  destruct (f x); [apply sublist_skip | apply sublist_cons]; exact IH.
Qed.

Lemma filter_elem {A : Type} (f : A → bool) (xs : list A) (x : A) :
  x ∈ List.filter f xs ↔ x ∈ xs ∧ f x = true.
Proof. rewrite !list_elem_of_In. apply filter_In. Qed.

Lemma filter_none {A : Type} (f : A → bool) (xs : list A) :
  (∀ x, x ∈ xs → f x = false) → List.filter f xs = [].
Proof.
  induction xs as [|x xs IH]; simpl; [done|]. intros Hf.
  rewrite (Hf x) by left. apply IH. intros y Hy. apply Hf. right; done.
Qed.

(** The new array is at a reference no array had, holds the elements
    given, and every other part of the store is as it was. *)
Lemma new_array_spec xs s :
  array_heap s !! (new_array xs s).1 = None ∧
  array_heap (new_array xs s).2 !! (new_array xs s).1 = Some xs ∧
  (∀ a, a ≠ (new_array xs s).1 →
     array_heap (new_array xs s).2 !! a = array_heap s !! a) ∧
  authors (new_array xs s).2 = authors s ∧ posts (new_array xs s).2 = posts s ∧
  author_heap (new_array xs s).2 = author_heap s ∧
  post_heap (new_array xs s).2 = post_heap s.
Proof.
  unfold new_array; simpl. split.
  { apply not_elem_of_dom, is_fresh. }
  split; [apply lookup_insert_eq|]. split; [|done].
  intros a Hne. apply lookup_insert_ne. done.
Qed.


Lemma Author_posts_array author s :
  array_heap s !! (Author.posts author s).1 = None ∧
  array_heap (Author.posts author s).2 !! (Author.posts author s).1
  = Some (postsByAuthor s author) ∧
  authors (Author.posts author s).2 = authors s ∧
  posts (Author.posts author s).2 = posts s ∧
  author_heap (Author.posts author s).2 = author_heap s ∧
  post_heap (Author.posts author s).2 = post_heap s.
Proof.
  unfold Author.posts, array_from.
  destruct (new_array (JsMap.values (posts s)) s) as [all s1] eqn:Hs1.
  pose proof (new_array_spec (JsMap.values (posts s)) s) as Hnew.
  rewrite Hs1 in Hnew. simpl in Hnew.
  destruct Hnew as (Hfresh & Hall & Hothers & Ha & Hp & Hah & Hph).
  unfold array_filter. rewrite Hall. simpl default.
  match goal with |- context [new_array ?xs s1] =>
    pose proof (new_array_spec xs s1) as (Hfresh2 & Hres & _ & Ha2 & Hp2 & Hah2 & Hph2)
  end.
  split.
  { match goal with |- _ !! ?r = None => destruct (decide (r = all)) as [Hr|Hr] end.
    - rewrite Hr in Hfresh2. congruence.
    - rewrite <- (Hothers _ Hr). exact Hfresh2. }
  split; [rewrite Hres; unfold postsByAuthor; rewrite Hph; reflexivity|].
  repeat split; congruence.
Qed.

(** An array, once allocated, is never changed by a call. *)
Lemma new_array_keeps xs s a ys :
  array_heap s !! a = Some ys → array_heap (new_array xs s).2 !! a = Some ys.
Proof.
  intros Ha. destruct (new_array_spec xs s) as (Hfresh & _ & Hothers & _).
  rewrite Hothers; [exact Ha|]. intros ->. congruence.
Qed.

Lemma call_keeps_arrays c s a ys :
  array_heap s !! a = Some ys → array_heap (call c s) !! a = Some ys.
Proof.
  intros Ha. destruct c; cbn [call].
  - apply new_array_keeps, Ha.
  - unfold Query.author. destruct (JsMap.get _ _); exact Ha.
  - unfold Mutation.upvotePost. destruct (JsMap.get _ _); exact Ha.
  - unfold Author.posts, array_from.
    destruct (new_array (JsMap.values (posts s)) s) as [all s1] eqn:Hs1.
    unfold array_filter. apply new_array_keeps.
    replace s1 with (new_array (JsMap.values (posts s)) s).2 by (rewrite Hs1; done).
    apply new_array_keeps, Ha.
  - exact Ha.
Qed.

Lemma run_keeps_arrays cs s a ys :
  array_heap s !! a = Some ys → array_heap (run cs s) !! a = Some ys.
Proof.
  intros Ha. induction cs as [|c cs IH] using rev_ind; [exact Ha|].
  rewrite run_snoc. apply call_keeps_arrays, IH.
Qed.

End array_facts.

(** ** Facts about [String] on integers *)

Section number_to_string_facts.
Import NumberToString.









End number_to_string_facts.

(** ** The specification, claim by claim *)

(** C1, amended.  On a store that meets the data model, for every post id:
    if a post with that id is present and its votes are an integer [v]
    with [-2^53 <= v < 2^53], [upvotePost(postId)] returns that post and
    leaves it with votes [v + 1]; if no post with that id is present the
    call throws the not-found error and leaves the store as it was; and on
    every reachable store an id that is none of 1, 2, 3, 4 is not found. *)
Theorem upvotePost_increments_or_not_found (s : Store) (postId : jsval) :
  store_ok s →
  (∀ l p v, has_post s (ToNumber postId) l p →
     PostObject.votes p = Int v → - two53 ≤ v → v < two53 →
     ∃ s', Mutation.upvotePost postId s = (Return l, s') ∧
           post_heap s' !! l = Some (PostObject.set_votes (Int (v + 1)) p))
  ∧ ((∀ l p, ¬ has_post s (ToNumber postId) l p) →
     Mutation.upvotePost postId s = (Throw (PostNotFound postId), s))
  ∧ (reachable s →
     (∀ z, z ∈ [1; 2; 3; 4] → strict_equal (Int z) (ToNumber postId) = false) →
     Mutation.upvotePost postId s = (Throw (PostNotFound postId), s)).
Proof.
  intros Hok. repeat split.
  - intros l p v Hp Hv Hlo Hhi.
    destruct (upvotePost_present s postId l p Hok Hp) as (s' & Heq & Hl & _).
    exists s'. split; [exact Heq|].
    rewrite Hl, Hv, add_one_exact by lia. reflexivity.
  - intros Hno. apply upvotePost_absent, no_post_get; done.
  - intros Hreach Hn. apply upvotePost_absent.
    destruct (reachable_maps s Hreach) as (_ & -> & _).
    apply seed_posts_get, Hn.
Qed.

Lemma upvotePost_increments_or_not_found_witness :
  store_ok seed ∧
  ∃ s', Mutation.upvotePost (JStr "1") seed = (Return 1%positive, s') ∧
        post_heap s' !! 1%positive
        = Some (PostObject.make (Int 1) (Int 1) "Introduction to GraphQL" (Int 3)).
Proof.
  split; [exact seed_ok|].
  destruct (upvotePost_increments_or_not_found seed (JStr "1") seed_ok) as [H _].
  apply (H 1%positive
           (PostObject.make (Int 1) (Int 1) "Introduction to GraphQL" (Int 2)) 2).
  - apply has_post_get; [exact seed_ok | split; vm_compute; reflexivity].
  - reflexivity.
  - vm_compute; discriminate.
  - vm_compute; reflexivity.
Defined.

(** C1 as stated fails: after 9007199254740990 upvotes of post 1 of the
    seed data the post is present with votes [2^53], and one more
    [upvotePost(1)] returns the post and leaves its votes at [2^53]. *)
Lemma upvotePost_stuck_at_two53 :
  let s := upvote_times 9007199254740990 (JNum (Int 1)) seed in
  reachable s ∧
  ∃ p, has_post s (Int 1) 1%positive p ∧ PostObject.votes p = Int two53 ∧
       (Mutation.upvotePost (JNum (Int 1)) s).1 = Return 1%positive ∧
       post_heap (Mutation.upvotePost (JNum (Int 1)) s).2 !! 1%positive = Some p.
Proof.
  assert (has_post seed (Int 1) 1%positive
            (PostObject.make (Int 1) (Int 1) "Introduction to GraphQL" (Int 2))) as Hseed.
  { apply has_post_get; [exact seed_ok | split; vm_compute; reflexivity]. }
  pose proof (upvote_times_saturating seed (JNum (Int 1)) 1%positive _ 2
                9007199254740990 seed_ok Hseed eq_refl) as Hs.
  pose proof (reachable_upvote_times 9007199254740990 (JNum (Int 1))) as Hreach.
  cbv zeta. generalize dependent (upvote_times 9007199254740990 (JNum (Int 1)) seed).
  intros s Hs Hreach. split; [exact Hreach|].
  pose proof (reachable_ok s Hreach) as Hok.
  specialize (Hs ltac:(vm_compute; discriminate) ltac:(vm_compute; discriminate)).
  change (Z.min (2 + Z.of_N 9007199254740990) two53) with two53 in Hs.
  eexists. split; [exact Hs|]. split; [reflexivity|].
  destruct (upvotePost_present s (JNum (Int 1)) _ _ Hok Hs) as (s' & Heq & Hl & _).
  rewrite Heq. split; [reflexivity|].
  simpl. rewrite Hl. simpl PostObject.votes. rewrite add_one_two53. reflexivity.
Qed.

(** C2.  On a store that meets the data model, for every id: if an author
    whose [id] equals [Number(id)] is present, [author(id)] returns that
    author; if none is present it throws the not-found error, not a value.
    On every reachable store the ids 1, 2, 3 are the present ones. *)
Theorem Query_author_found_or_not_found (s : Store) (id : jsval) :
  store_ok s →
  (∀ l a, has_author s (ToNumber id) l a → Query.author id s = (Return l, s))
  ∧ ((∀ l a, ¬ has_author s (ToNumber id) l a) →
     Query.author id s = (Throw (AuthorNotFound id), s))
  ∧ (reachable s →
     (∀ z, z ∈ [1; 2; 3] → strict_equal (Int z) (ToNumber id) = true →
        ∃ l a, Query.author id s = (Return l, s) ∧
               author_heap s !! l = Some a ∧ AuthorObject.id a = Int z)
     ∧ ((∀ z, z ∈ [1; 2; 3] → strict_equal (Int z) (ToNumber id) = false) →
        Query.author id s = (Throw (AuthorNotFound id), s))).
Proof.
  intros Hok.
  assert (∀ l a, has_author s (ToNumber id) l a → Query.author id s = (Return l, s))
    as Hfound.
  { intros l a [Hget _]%has_author_get; [|done].
    unfold Query.author. rewrite Hget. reflexivity. }
  split; [exact Hfound|]. split.
  - intros Hno. unfold Query.author. rewrite no_author_get by done. reflexivity.
  - intros Hreach. destruct (reachable_maps s Hreach) as (Ha & _ & Hah). split.
    + intros z Hz Hn. destruct (seed_has_author z _ Hz Hn) as (l & a & Hla & Hid).
      assert (has_author s (ToNumber id) l a) as Hla'.
      { unfold has_author. rewrite Ha, Hah. exact Hla. }
      exists l, a. split; [eapply Hfound; exact Hla'|]. split; [apply Hla'|exact Hid].
    + intros Hn. unfold Query.author. rewrite Ha, seed_authors_get by done. reflexivity.
Qed.

Lemma Query_author_found_or_not_found_witness :
  store_ok seed ∧ Query.author (JStr "2") seed = (Return 2%positive, seed).
Proof.
  split; [exact seed_ok|].
  destruct (Query_author_found_or_not_found seed (JStr "2") seed_ok) as [H _].
  apply (H 2%positive (AuthorObject.make (Int 2) "Sashko" "Stubailo")).
  apply has_author_get; [exact seed_ok | split; vm_compute; reflexivity].
Defined.

(** C3.  For every author value, [Author.posts(author)] returns a new
    array holding exactly the posts of the post store whose [authorId]
    equals [author.id], in the insertion order of the [posts] map; the
    array is empty when no post has that [authorId]; the maps and the
    objects are left as they were. *)
Theorem Author_posts_exactly (s : Store) (author : AuthorObject.t) :
  ∃ xs,
    array_heap (Author.posts author s).2 !! (Author.posts author s).1 = Some xs ∧
    array_heap s !! (Author.posts author s).1 = None ∧
    xs = postsByAuthor s author ∧
    (∀ l, l ∈ xs ↔
          l ∈ JsMap.values (posts s) ∧
          ∃ p, post_heap s !! l = Some p ∧
               strict_equal (PostObject.authorId p) (AuthorObject.id author) = true) ∧
    sublist xs (JsMap.values (posts s)) ∧
    ((∀ l p, l ∈ JsMap.values (posts s) → post_heap s !! l = Some p →
        strict_equal (PostObject.authorId p) (AuthorObject.id author) = false) →
     xs = []) ∧
    authors (Author.posts author s).2 = authors s ∧
    posts (Author.posts author s).2 = posts s ∧
    author_heap (Author.posts author s).2 = author_heap s ∧
    post_heap (Author.posts author s).2 = post_heap s.
Proof.
  destruct (Author_posts_array author s) as (Hfresh & Hres & Hrest).
  exists (postsByAuthor s author).
  split; [exact Hres|]. split; [exact Hfresh|]. split; [reflexivity|].
  split; [|split; [apply filter_sublist|split; [|exact Hrest]]].
  - intros l. unfold postsByAuthor. rewrite filter_elem. split.
    + intros [Hin Hf]. split; [exact Hin|].
      destruct (post_heap s !! l) as [p|]; [|discriminate]. exists p. done.
    + intros [Hin (p & Hp & Heq)]. split; [exact Hin|]. rewrite Hp. exact Heq.
  - intros Hno. apply filter_none. intros l Hin.
    destruct (post_heap s !! l) as [p|] eqn:Hp; [|reflexivity]. eapply Hno; done.
Qed.

Lemma Author_posts_exactly_witness :
  array_heap (Author.posts (AuthorObject.make (Int 2) "Sashko" "Stubailo") seed).2
    !! (Author.posts (AuthorObject.make (Int 2) "Sashko" "Stubailo") seed).1
  = Some [2%positive; 3%positive].
Proof.
  destruct (Author_posts_exactly seed (AuthorObject.make (Int 2) "Sashko" "Stubailo"))
    as (xs & Hres & _ & Hxs & _).
  rewrite Hres, Hxs. vm_compute. reflexivity.
Defined.

(** C4.  On a store that meets the data model, for every post value whose
    [authorId] equals the [id] of an author present in the author store,
    [Post.author(post)] returns that author. *)
Theorem Post_author_of_present (s : Store) (post : PostObject.t) (l : loc)
    (a : AuthorObject.t) :
  store_ok s →
  has_author s (PostObject.authorId post) l a →
  Post.author post s = Some l ∧
  author_heap s !! l = Some a ∧
  strict_equal (AuthorObject.id a) (PostObject.authorId post) = true.
Proof.
  intros Hok Ha. pose proof Ha as [Hget Hl]%has_author_get; [|done].
  split; [exact Hget|]. split; [exact Hl|]. apply Ha.
Qed.

Lemma Post_author_of_present_witness :
  store_ok seed ∧
  Post.author (PostObject.make (Int 3) (Int 2) "Advanced GraphQL" (Int 1)) seed
  = Some 2%positive.
Proof.
  split; [exact seed_ok|].
  apply (Post_author_of_present seed
           (PostObject.make (Int 3) (Int 2) "Advanced GraphQL" (Int 1))
           2%positive (AuthorObject.make (Int 2) "Sashko" "Stubailo") seed_ok).
  apply has_author_get; [exact seed_ok | split; vm_compute; reflexivity].
Defined.

(** C5, amended.  On a store that meets the data model, for every present
    post id whose post has integer votes [v >= -2^53] and every natural
    number [k] with [v + k <= 2^53], calling [upvotePost(postId)] [k] times
    in sequence leaves the post with votes [v + k]. *)
Theorem upvote_times_exact (s : Store) (postId : jsval) (l : loc)
    (p : PostObject.t) (v : Z) (k : N) :
  store_ok s →
  has_post s (ToNumber postId) l p →
  PostObject.votes p = Int v →
  - two53 ≤ v → v + Z.of_N k ≤ two53 →
  post_heap (upvote_times k postId s) !! l
  = Some (PostObject.set_votes (Int (v + Z.of_N k)) p).
Proof.
  intros Hok Hp Hv Hlo Hhi.
  destruct (upvote_times_saturating s postId l p v k Hok Hp Hv Hlo ltac:(lia))
    as (_ & Hl & _).
  rewrite Hl, Z.min_l by lia. reflexivity.
Qed.

Lemma upvote_times_exact_witness :
  store_ok seed ∧
  post_heap (upvote_times 5 (JStr "4") seed) !! 4%positive
  = Some (PostObject.make (Int 4) (Int 3) "Launchpad is Cool" (Int 12)).
Proof.
  split; [exact seed_ok|].
  apply (upvote_times_exact seed (JStr "4") 4%positive
           (PostObject.make (Int 4) (Int 3) "Launchpad is Cool" (Int 7)) 7 5 seed_ok).
  - apply has_post_get; [exact seed_ok | split; vm_compute; reflexivity].
  - reflexivity.
  - vm_compute; discriminate.
  - vm_compute; discriminate.
Defined.

(** C5 as stated fails: post 1 of the seed data has votes 2, and after
    9007199254740992 calls of [upvotePost(1)] its votes are [2^53], not
    [2 + 2^53]. *)
Lemma upvote_times_two53_from_seed :
  PostObject.votes <$> post_heap seed !! 1%positive = Some (Int 2) ∧
  PostObject.votes <$>
    post_heap (upvote_times 9007199254740992 (JNum (Int 1)) seed) !! 1%positive
  = Some (Int 9007199254740992) ∧
  Int 9007199254740992 ≠ Int (2 + Z.of_N 9007199254740992).
Proof.
  split; [vm_compute; reflexivity|]. split; [|vm_compute; discriminate].
  assert (has_post seed (Int 1) 1%positive
            (PostObject.make (Int 1) (Int 1) "Introduction to GraphQL" (Int 2))) as Hseed.
  { apply has_post_get; [exact seed_ok | split; vm_compute; reflexivity]. }
  destruct (upvote_times_saturating seed (JNum (Int 1)) 1%positive _ 2
              9007199254740992 seed_ok Hseed eq_refl
              ltac:(vm_compute; discriminate) ltac:(vm_compute; discriminate))
    as (_ & Hl & _).
  rewrite Hl. reflexivity.
Qed.

(** C6.  [Query.posts()] returns a new array whose elements are the values
    of the [posts] map, all of them and in insertion order: its [i]-th
    element is the value of the [i]-th entry.  The call leaves the maps
    and the objects as they were, and a call made later, after any
    sequence of calls, returns another new array with the same full
    contents, the earlier array being as it was. *)
Theorem Query_posts_all (s : Store) :
  let r := (Query.posts s).1 in
  let s1 := (Query.posts s).2 in
  array_heap s !! r = None ∧
  (∃ xs, array_heap s1 !! r = Some xs ∧
         length xs = length (posts s) ∧
         ∀ i, xs !! i = snd <$> posts s !! i) ∧
  authors s1 = authors s ∧ posts s1 = posts s ∧
  author_heap s1 = author_heap s ∧ post_heap s1 = post_heap s ∧
  (∀ a, a ≠ r → array_heap s1 !! a = array_heap s !! a) ∧
  (∀ cs, let s2 := run cs s1 in
         let r' := (Query.posts s2).1 in
         r' ≠ r ∧
         array_heap s2 !! r' = None ∧
         array_heap (Query.posts s2).2 !! r' = Some (JsMap.values (posts s)) ∧
         array_heap (Query.posts s2).2 !! r = Some (JsMap.values (posts s))).
Proof.
  intros r s1.
  pose proof (new_array_spec (JsMap.values (posts s)) s)
    as (Hfresh & Hres & Hothers & Ha & Hp & Hah & Hph).
  split; [exact Hfresh|]. split.
  { exists (JsMap.values (posts s)). split; [exact Hres|].
    unfold JsMap.values. split; [apply length_fmap|].
    intros i. apply list_lookup_fmap. }
  do 4 (split; [assumption|]). split; [exact Hothers|].
  intros cs s2 r'.
  assert (posts s2 = posts s) as Hp2.
  { destruct (run_same cs s1) as (_ & Hp2 & _). unfold s2. rewrite Hp2. exact Hp. }
  assert (array_heap s2 !! r = Some (JsMap.values (posts s))) as Hr.
  { apply run_keeps_arrays. exact Hres. }
  pose proof (new_array_spec (JsMap.values (posts s2)) s2)
    as (Hfresh2 & Hres2 & _).
  pose proof (new_array_keeps (JsMap.values (posts s2)) s2 r _ Hr) as Hkept.
  unfold r', Query.posts, array_from. rewrite Hp2 in *.
  split; [|split; [exact Hfresh2|split; [exact Hres2|exact Hkept]]].
  intros Heq. rewrite Heq in Hfresh2. congruence.
Qed.

Lemma Query_posts_all_witness :
  array_heap (Query.posts seed).2 !! (Query.posts seed).1
  = Some [1%positive; 2%positive; 3%positive; 4%positive].
Proof.
  destruct (Query_posts_all seed) as (_ & (xs & Hres & _ & Hxs) & _).
  rewrite Hres. f_equal. apply list_eq. intros i. rewrite Hxs.
  destruct i as [|[|[|[|[|i]]]]]; reflexivity.
Defined.

(** C7.  On a store that meets the data model, [upvotePost(postId)] on a
    present id changes the votes of the post with that id and nothing
    else: the other fields of that post, every other post object, the two
    maps, the author objects and the arrays are as they were; and no
    sequence of calls changes the [authors] map or an author object. *)
Theorem upvotePost_frame (s : Store) (postId : jsval) (l : loc) (p : PostObject.t) :
  store_ok s →
  has_post s (ToNumber postId) l p →
  (∃ s' v, Mutation.upvotePost postId s = (Return l, s') ∧
     post_heap s' !! l = Some (PostObject.set_votes v p) ∧
     (∀ l', l' ≠ l → post_heap s' !! l' = post_heap s !! l') ∧
     (∀ l' p', l' ∈ JsMap.values (posts s) → post_heap s !! l' = Some p' →
        strict_equal (PostObject.id p') (ToNumber postId) = false →
        post_heap s' !! l' = Some p') ∧
     authors s' = authors s ∧ posts s' = posts s ∧
     author_heap s' = author_heap s ∧ array_heap s' = array_heap s)
  ∧ (∀ cs s0, authors (run cs s0) = authors s0 ∧
              author_heap (run cs s0) = author_heap s0).
Proof.
  intros Hok Hp. split.
  - destruct (upvotePost_present s postId l p Hok Hp)
      as (s' & Heq & Hl & Hother & Hrest).
    exists s', (add (PostObject.votes p) (Int 1)).
    split; [exact Heq|]. split; [exact Hl|]. split; [exact Hother|].
    split; [|exact Hrest].
    intros l' p' Hin Hp' Hne. rewrite Hother; [exact Hp'|].
    intros ->. destruct Hp as (_ & Hpl & Heqn). simplify_eq. congruence.
  - intros cs s0. destruct (run_same cs s0) as (? & _ & ? & _). done.
Qed.

Lemma upvotePost_frame_witness :
  store_ok seed ∧
  authors (run [CallUpvotePost (JStr "2"); CallQueryPosts] seed) = authors seed.
Proof.
  split; [exact seed_ok|].
  apply (upvotePost_frame seed (JStr "2") 2%positive
           (PostObject.make (Int 2) (Int 2) "Welcome to Meteor" (Int 3)) seed_ok).
  apply has_post_get; [exact seed_ok | split; vm_compute; reflexivity].
Defined.

(** C8.  Referential integrity holds in every reachable store: in the
    seed data and after any sequence of resolver calls, [upvotePost] among
    them, every post's [authorId] equals the [id] of an author present in
    the author store. *)
Theorem referential_integrity_invariant (cs : list Call) :
  referential_integrity (run cs seed).
Proof.
  eapply referential_integrity_same; [apply run_same|].
  apply seed_referential_integrity.
Qed.

Lemma referential_integrity_invariant_witness :
  referential_integrity (run [CallUpvotePost (JStr "1"); CallUpvotePost (JNum (Int 4))] seed).
Proof. apply (referential_integrity_invariant [CallUpvotePost (JStr "1"); CallUpvotePost (JNum (Int 4))]). Defined.

(** C9.  When [upvotePost(postId)] throws, the id is absent from the
    [posts] map, the error is the not-found error, and the store is left
    exactly as it was. *)
Theorem upvotePost_not_found_unchanged (s s' : Store) (postId : jsval) (e : Error) :
  Mutation.upvotePost postId s = (Throw e, s') →
  JsMap.get (posts s) (ToNumber postId) = None ∧ e = PostNotFound postId ∧ s' = s.
Proof.
  unfold Mutation.upvotePost.
  destruct (JsMap.get (posts s) (ToNumber postId)) as [l|]; intros Heq;
    simplify_eq; done.
Qed.

Lemma upvotePost_not_found_unchanged_witness :
  Mutation.upvotePost (JStr "9") seed = (Throw (PostNotFound (JStr "9")), seed) ∧
  JsMap.get (posts seed) (ToNumber (JStr "9")) = None.
Proof.
  split; [vm_compute; reflexivity|].
  apply (upvotePost_not_found_unchanged seed seed (JStr "9") (PostNotFound (JStr "9"))).
  vm_compute; reflexivity.
Defined.



(** ** Further facts about the resolvers *)

Section resolver_facts.

(** Against a number that is not [NaN], [===] from either side is the key
    comparison of [Map]. *)
Lemma strict_equal_flip x y :
  x ≠ NaN → strict_equal y x = same_value_zero x y.
Proof.
  intros Hx. rewrite same_value_zero_sym. unfold strict_equal, same_value_zero.
  destruct y as [| | |[]|]; try done; destruct x; done.
Qed.

(** Two entries of a map with unique keys whose keys are the same are one
    entry. *)
Lemma unique_keys_same_value {V : Type} (m : list (number * V)) k1 v1 k2 v2 :
  JsMap.unique_keys m → (k1, v1) ∈ m → (k2, v2) ∈ m →
  same_value_zero k1 k2 = true → v1 = v2.
Proof.
  intros Hu [i Hi]%list_elem_of_lookup [j Hj]%list_elem_of_lookup Hsv.
  pose proof (Hu i j _ _ Hi Hj Hsv) as ->. congruence.
Qed.

(** A call leaves the post objects as they were or adds one to the votes
    of one of them. *)
Lemma call_post_heap c s :
  post_heap (call c s) = post_heap s ∨
  ∃ l, post_heap (call c s)
       = alter (λ p, PostObject.set_votes (add (PostObject.votes p) (Int 1)) p)
               l (post_heap s).
Proof.
  destruct c; cbn [call]; try (left; reflexivity).
  - left. unfold Query.author. destruct (JsMap.get _ _); reflexivity.
  - unfold Mutation.upvotePost.
    destruct (JsMap.get (posts s) (ToNumber postId)) as [l|]; [right|left; reflexivity].
    exists l. reflexivity.
Qed.

Lemma run_cons c cs s : run (c :: cs) s = run cs (call c s).
Proof. reflexivity. Qed.

(** Two upvotes leave the same store in either order. *)
Lemma upvote_swap a b s :
  call (CallUpvotePost b) (call (CallUpvotePost a) s)
  = call (CallUpvotePost a) (call (CallUpvotePost b) s).
Proof.
  cbn [call]. unfold Mutation.upvotePost.
  destruct (JsMap.get (posts s) (ToNumber a)) as [la|] eqn:Ha;
    destruct (JsMap.get (posts s) (ToNumber b)) as [lb|] eqn:Hb;
    simpl; rewrite ?Ha, ?Hb; simpl; try reflexivity.
  f_equal. destruct (decide (lb = la)) as [->|Hne]; [reflexivity|].
  apply alter_alter_ne. exact Hne.
Qed.

Lemma postsByAuthor_same s s' author :
  same_but_votes s s' → postsByAuthor s' author = postsByAuthor s author.
Proof.
  intros (_ & Hp & _ & Hph). unfold postsByAuthor. rewrite Hp.
  apply filter_ext. intros l.
  destruct (Hph l) as [[-> ->]|(p & v & -> & ->)]; reflexivity.
Qed.

(** For an author object of the store, at [la], and a post object of the
    store: the post passes the filter of [Author.posts] exactly when
    [Post.author] finds [la]. *)
Lemma posts_of_author_iff s la a lp p :
  store_ok s →
  la ∈ JsMap.values (authors s) → author_heap s !! la = Some a →
  lp ∈ JsMap.values (posts s) → post_heap s !! lp = Some p →
  lp ∈ postsByAuthor s a ↔ Post.author p s = Some la.
Proof.
  intros Hok [k Hk]%values_elem Ha Hlp Hp.
  destruct (ok_authors s Hok k la Hk) as (a' & Ha' & Hid & Hint). simplify_eq.
  pose proof (to_Z_not_NaN _ Hint) as Hnan.
  unfold postsByAuthor, Post.author. rewrite filter_elem, Hp. split.
  - intros [_ Heq]. rewrite strict_equal_flip in Heq by done.
    eapply get_unique; [apply Hok | exact Hk | exact Heq].
  - intros (k' & Hk' & Hsv)%get_Some_elem. split; [exact Hlp|].
    destruct (ok_authors s Hok k' la Hk') as (a' & Ha' & Hid' & _). simplify_eq.
    rewrite strict_equal_flip by done. exact Hsv.
Qed.

End resolver_facts.

(** ** Facts about whitespace around a numeric string *)

Section whitespace_facts.
Import StringToNumber.

Lemma trim_left_blank ws t :
  string_forall is_white_space ws = true →
  trim_left (String.append ws t) = trim_left t.
Proof.
  induction ws as [|c ws IH]; simpl; [done|].
  intros [Hc Hws]%andb_true_iff. rewrite Hc. apply IH, Hws.
Qed.

Lemma trim_right_blank ws :
  string_forall is_white_space ws = true → trim_right ws = EmptyString.
Proof.
  induction ws as [|c ws IH]; simpl; [done|].
  intros [Hc Hws]%andb_true_iff. rewrite (IH Hws), Hc. reflexivity.
Qed.

Lemma trim_right_append_blank t ws :
  string_forall is_white_space ws = true →
  trim_right (String.append t ws) = trim_right t.
Proof.
  intros Hws. induction t as [|c t IH]; simpl; [apply trim_right_blank, Hws|].
  rewrite IH. reflexivity.
Qed.

Lemma trim_left_append t ws :
  trim_left t ≠ EmptyString →
  trim_left (String.append t ws) = String.append (trim_left t) ws.
Proof.
  induction t as [|c t IH]; simpl; [done|].
  destruct (is_white_space c); [exact IH | reflexivity].
Qed.

Lemma trim_left_all_blank ws :
  string_forall is_white_space ws = true ↔ trim_left ws = EmptyString.
Proof.
  induction ws as [|c ws IH]; simpl; [done|].
  destruct (is_white_space c); simpl; [exact IH|]. split; discriminate.
Qed.

Lemma trim_padded ws1 str ws2 :
  string_forall is_white_space ws1 = true →
  string_forall is_white_space ws2 = true →
  trim (String.append ws1 (String.append str ws2)) = trim str.
Proof.
  intros H1 H2. unfold trim. rewrite trim_left_blank by done.
  destruct (trim_left str) as [|c t] eqn:Hstr.
  - apply trim_left_all_blank in Hstr.
    rewrite (trim_left_blank str ws2 Hstr).
    apply trim_left_all_blank in H2. rewrite H2. reflexivity.
  - rewrite trim_left_append by (rewrite Hstr; done).
    rewrite Hstr. apply trim_right_append_blank, H2.
Qed.

End whitespace_facts.

(** ** Further properties of the resolvers *)

(** X1.  On a store that meets the data model, [Post.author(post)] returns
    [undefined] exactly when no author of the store has the post's
    [authorId] as its [id]; it does not throw.  On a reachable store that
    is every [authorId] other than 1, 2 and 3. *)
Theorem Post_author_undefined_iff_absent (s : Store) (post : PostObject.t) :
  store_ok s →
  (Post.author post s = None ↔
   ∀ l a, ¬ has_author s (PostObject.authorId post) l a)
  ∧ (reachable s →
     (∀ z, z ∈ [1; 2; 3] → strict_equal (Int z) (PostObject.authorId post) = false) →
     Post.author post s = None).
Proof.
  intros Hok. split; [split|].
  - intros Hnone l a [Hget _]%has_author_get; [|done].
    unfold Post.author in Hnone. congruence.
  - intros Hno. apply no_author_get; done.
  - intros Hreach Hz. unfold Post.author.
    destruct (reachable_maps s Hreach) as (-> & _). apply seed_authors_get, Hz.
Qed.

Lemma Post_author_undefined_iff_absent_witness :
  store_ok seed ∧
  Post.author (PostObject.make (Int 5) (Int 9) "Orphan" (Int 0)) seed = None.
Proof.
  split; [exact seed_ok|].
  destruct (Post_author_undefined_iff_absent seed
              (PostObject.make (Int 5) (Int 9) "Orphan" (Int 0)) seed_ok) as [_ H].
  apply H; [exact reachable_seed|].
  intros z Hz. simpl.
  repeat (apply elem_of_cons in Hz as [->|Hz]; [reflexivity|]). inversion Hz.
Defined.

(** X2.  The two nested resolvers agree.  On a store that meets the data
    model, for an author object of the store and a post object of the
    store: the post is in the array [Author.posts(author)] returns exactly
    when [Post.author(post)] returns that author. *)
Theorem nested_resolvers_agree (s : Store) (la lp : loc)
    (a : AuthorObject.t) (p : PostObject.t) :
  store_ok s →
  la ∈ JsMap.values (authors s) → author_heap s !! la = Some a →
  lp ∈ JsMap.values (posts s) → post_heap s !! lp = Some p →
  ∃ xs, array_heap (Author.posts a s).2 !! (Author.posts a s).1 = Some xs ∧
        (lp ∈ xs ↔ Post.author p s = Some la).
Proof.
  intros Hok Hla Ha Hlp Hp.
  destruct (Author_posts_array a s) as (_ & Hres & _).
  exists (postsByAuthor s a). split; [exact Hres|].
  apply posts_of_author_iff; assumption.
Qed.

Lemma nested_resolvers_agree_witness :
  store_ok seed ∧
  ∃ xs, array_heap (Author.posts (AuthorObject.make (Int 2) "Sashko" "Stubailo") seed).2
          !! (Author.posts (AuthorObject.make (Int 2) "Sashko" "Stubailo") seed).1
        = Some xs ∧
        (3%positive ∈ xs ↔
         Post.author (PostObject.make (Int 3) (Int 2) "Advanced GraphQL" (Int 1)) seed
         = Some 2%positive).
Proof.
  split; [exact seed_ok|].
  apply (nested_resolvers_agree seed 2%positive 3%positive _ _ seed_ok).
  - apply values_elem. exists (Int 2). simpl. do 1 right. left.
  - vm_compute; reflexivity.
  - apply values_elem. exists (Int 3). simpl. do 2 right. left.
  - vm_compute; reflexivity.
Defined.

(** X3.  In every reachable store each post of the store is in the array
    [Author.posts] returns for one author object of the store, and in the
    array it returns for no other author object of the store. *)
Theorem posts_partitioned_by_author (cs : list Call) (lp : loc) :
  lp ∈ JsMap.values (posts (run cs seed)) →
  ∃ la a xs,
    la ∈ JsMap.values (authors (run cs seed)) ∧
    author_heap (run cs seed) !! la = Some a ∧
    array_heap (Author.posts a (run cs seed)).2 !! (Author.posts a (run cs seed)).1
    = Some xs ∧
    lp ∈ xs ∧
    ∀ la' a' xs',
      la' ∈ JsMap.values (authors (run cs seed)) →
      author_heap (run cs seed) !! la' = Some a' →
      array_heap (Author.posts a' (run cs seed)).2 !! (Author.posts a' (run cs seed)).1
      = Some xs' →
      lp ∈ xs' → la' = la.
Proof.
  intros Hlp.
  assert (reachable (run cs seed)) as Hreach by (exists cs; reflexivity).
  pose proof (reachable_ok _ Hreach) as Hok.
  pose proof (referential_integrity_same _ _ (run_same cs seed)
                seed_referential_integrity) as Hri.
  generalize dependent (run cs seed). intros s Hlp _ Hok Hri.
  pose proof Hlp as [k Hk]%values_elem.
  destruct (ok_posts s Hok k lp Hk) as (p & Hp & _).
  destruct (Hri lp p Hlp Hp) as (la & a & Hla).
  pose proof Hla as [Hget Ha]%has_author_get; [|done].
  destruct Hla as (Hin & _ & _).
  exists la, a, (postsByAuthor s a).
  split; [exact Hin|]. split; [exact Ha|].
  split; [apply (Author_posts_array a s)|]. split.
  - apply (posts_of_author_iff s la a lp p); assumption.
  - intros la' a' xs' Hin' Ha' Hxs' Hlisted.
    destruct (Author_posts_array a' s) as (_ & Hres & _).
    rewrite Hres in Hxs'. injection Hxs' as <-.
    apply (posts_of_author_iff s la' a' lp p) in Hlisted; try assumption.
    unfold Post.author in Hlisted. congruence.
Qed.

Lemma posts_partitioned_by_author_witness :
  ∃ la a xs,
    la ∈ JsMap.values (authors (run [CallUpvotePost (JStr "3")] seed)) ∧
    author_heap (run [CallUpvotePost (JStr "3")] seed) !! la = Some a ∧
    array_heap (Author.posts a (run [CallUpvotePost (JStr "3")] seed)).2
      !! (Author.posts a (run [CallUpvotePost (JStr "3")] seed)).1 = Some xs ∧
    3%positive ∈ xs.
Proof.
  destruct (posts_partitioned_by_author [CallUpvotePost (JStr "3")] 3%positive)
    as (la & a & xs & Hla & Ha & Hxs & Hin & _).
  - destruct (run_same [CallUpvotePost (JStr "3")] seed) as (_ & -> & _).
    apply values_elem. exists (Int 3). simpl. do 2 right. left.
  - exists la, a, xs. split; [exact Hla|]. split; [exact Ha|].
    split; [exact Hxs|exact Hin].
Defined.

(** X4.  No sequence of resolver calls, from any store, changes the two
    maps or an author object, creates or deletes a post object, or changes
    the [id], [authorId] or [title] of a post object. *)
Theorem calls_change_only_votes (cs : list Call) (s : Store) :
  authors (run cs s) = authors s ∧ posts (run cs s) = posts s ∧
  author_heap (run cs s) = author_heap s ∧
  dom (post_heap (run cs s)) = dom (post_heap s) ∧
  ∀ l p, post_heap s !! l = Some p →
    ∃ p', post_heap (run cs s) !! l = Some p' ∧
          PostObject.id p' = PostObject.id p ∧
          PostObject.authorId p' = PostObject.authorId p ∧
          PostObject.title p' = PostObject.title p.
Proof.
  destruct (run_same cs s) as (Ha & Hp & Hah & Hph).
  do 3 (split; [assumption|]). split.
  - apply set_eq. intros l. rewrite !elem_of_dom.
    destruct (Hph l) as [[-> ->]|(p & v & -> & ->)]; split; intros [? ?]; eauto.
  - intros l p Hl. destruct (Hph l) as [[? ?]|(p0 & v & ? & Hl')]; simplify_eq.
    exists (PostObject.set_votes v p). split; [exact Hl'|]. done.
Qed.

Lemma calls_change_only_votes_witness :
  posts (run [CallUpvotePost (JStr "1"); CallQueryPosts; CallUpvotePost (JNum (Int 1))] seed)
  = posts seed.
Proof.
  destruct (calls_change_only_votes
              [CallUpvotePost (JStr "1"); CallQueryPosts; CallUpvotePost (JNum (Int 1))]
              seed) as (_ & Hposts & _).
  exact Hposts.
Defined.

(** X5.  In every reachable store the votes of a post object are an
    integer from 1 to [2^53], and a resolver call leaves them as they are
    or one higher: votes never decrease and never pass [2^53]. *)
Theorem votes_never_decrease (cs : list Call) (c : Call) (l : loc) (p : PostObject.t) :
  post_heap (run cs seed) !! l = Some p →
  ∃ v v', PostObject.votes p = Int v ∧
          post_heap (call c (run cs seed)) !! l = Some (PostObject.set_votes (Int v') p) ∧
          1 ≤ v ∧ v ≤ v' ∧ v' ≤ v + 1 ∧ v' ≤ two53.
Proof.
  intros Hp.
  assert (reachable (run cs seed)) as Hreach by (exists cs; reflexivity).
  pose proof (reachable_votes_in_range _ Hreach l p Hp) as Hrange. simpl in Hrange.
  unfold votes_in_range in Hrange.
  destruct (PostObject.votes p) as [| | |v|] eqn:Hv; try discriminate.
  apply andb_true_iff in Hrange as [H1 H2]. apply Z.leb_le in H1, H2.
  destruct (call_post_heap c (run cs seed)) as [->|[l0 ->]].
  - exists v, v. rewrite <- Hv, set_votes_same. repeat split; try lia. exact Hp.
  - destruct (decide (l0 = l)) as [->|Hne].
    + exists v, (Z.min (v + 1) two53).
      rewrite lookup_alter_eq, Hp. simpl. rewrite Hv.
      rewrite add_one_saturating by (unfold two53 in *; lia).
      repeat split; try lia.
    + exists v, v. rewrite lookup_alter_ne by done.
      rewrite <- Hv, set_votes_same. repeat split; try lia. exact Hp.
Qed.

Lemma votes_never_decrease_witness :
  ∃ v v', Int 7 = Int v ∧
          post_heap (call (CallUpvotePost (JStr "4")) (run [] seed)) !! 4%positive
          = Some (PostObject.set_votes (Int v')
                    (PostObject.make (Int 4) (Int 3) "Launchpad is Cool" (Int 7))) ∧
          1 ≤ v ∧ v ≤ v' ∧ v' ≤ v + 1 ∧ v' ≤ two53.
Proof.
  apply (votes_never_decrease [] (CallUpvotePost (JStr "4")) 4%positive
           (PostObject.make (Int 4) (Int 3) "Launchpad is Cool" (Int 7))).
  vm_compute; reflexivity.
Defined.

(** X6.  Upvotes commute: two sequences of [upvotePost] calls whose ids
    are the same up to order leave the same store, from any store. *)
Theorem upvotes_commute (ids ids' : list jsval) (s : Store) :
  ids ≡ₚ ids' →
  run (CallUpvotePost <$> ids) s = run (CallUpvotePost <$> ids') s.
Proof.
  intros Hperm. revert s.
  induction Hperm as [|id ids ids' _ IH|a b ids|ids1 ids2 ids3 _ IH1 _ IH2]; intros s.
  - reflexivity.
  - rewrite !fmap_cons, !run_cons. apply IH.
  - rewrite !fmap_cons, !run_cons. f_equal. apply upvote_swap.
  - rewrite IH1. apply IH2.
Qed.

Lemma upvotes_commute_witness :
  run (CallUpvotePost <$> [JStr "1"; JStr "4"; JNum (Int 1)]) seed
  = run (CallUpvotePost <$> [JStr "4"; JStr "1"; JNum (Int 1)]) seed.
Proof.
  apply (upvotes_commute [JStr "1"; JStr "4"; JNum (Int 1)]
           [JStr "4"; JStr "1"; JNum (Int 1)] seed).
  apply perm_swap.
Defined.

(** X7.  On a store that meets the data model, for a present post id
    whose post has integer votes [v] with [-2^53 <= v <= 2^53]: after [k]
    calls of [upvotePost(postId)] the votes are the lesser of [v + k] and
    [2^53], and every other post object is as it was. *)
Theorem upvote_times_closed_form (s : Store) (postId : jsval) (l : loc)
    (p : PostObject.t) (v : Z) (k : N) :
  store_ok s →
  has_post s (ToNumber postId) l p →
  PostObject.votes p = Int v →
  - two53 ≤ v → v ≤ two53 →
  post_heap (upvote_times k postId s) !! l
  = Some (PostObject.set_votes (Int (Z.min (v + Z.of_N k) two53)) p) ∧
  ∀ l', l' ≠ l → post_heap (upvote_times k postId s) !! l' = post_heap s !! l'.
Proof.
  intros Hok Hp Hv Hlo Hhi. split.
  - apply (upvote_times_saturating s postId l p v k Hok Hp Hv Hlo Hhi).
  - intros l' Hne. induction k as [|k IH] using N.peano_ind; [reflexivity|].
    rewrite upvote_times_succ.
    assert (store_ok (upvote_times k postId s)) as Hok'.
    { eapply store_ok_same; [apply upvote_times_same | done]. }
    pose proof (upvote_times_saturating s postId l p v k Hok Hp Hv Hlo Hhi) as Hk.
    destruct (upvotePost_present _ postId l _ Hok' Hk) as (s' & Heq & _ & Hother & _).
    rewrite Heq. simpl. rewrite (Hother l' Hne). exact IH.
Qed.

Lemma upvote_times_closed_form_witness :
  store_ok seed ∧
  post_heap (upvote_times 3 (JStr "2") seed) !! 2%positive
  = Some (PostObject.make (Int 2) (Int 2) "Welcome to Meteor" (Int 6)).
Proof.
  split; [exact seed_ok|].
  apply (upvote_times_closed_form seed (JStr "2") 2%positive
           (PostObject.make (Int 2) (Int 2) "Welcome to Meteor" (Int 3)) 3 3 seed_ok).
  - apply has_post_get; [exact seed_ok | split; vm_compute; reflexivity].
  - reflexivity.
  - vm_compute; discriminate.
  - vm_compute; discriminate.
Defined.

(** X8.  The array of [Query.posts()] holds the post objects themselves,
    not copies.  On a store that meets the data model, when
    [upvotePost(postId)] on a present id, whose post has integer votes [v]
    with [-2^53 <= v < 2^53], follows [Query.posts()], the array returned
    earlier still holds the same references, the upvoted post among them,
    and that post, which had votes [v], now has votes [v + 1]. *)
Theorem listing_shares_post_objects (s : Store) (postId : jsval) (l : loc)
    (p : PostObject.t) (v : Z) :
  store_ok s →
  has_post s (ToNumber postId) l p →
  PostObject.votes p = Int v → - two53 ≤ v → v < two53 →
  let r := (Query.posts s).1 in
  let s1 := (Query.posts s).2 in
  let s2 := (Mutation.upvotePost postId s1).2 in
  array_heap s1 !! r = Some (JsMap.values (posts s)) ∧
  array_heap s2 !! r = Some (JsMap.values (posts s)) ∧
  l ∈ JsMap.values (posts s) ∧
  post_heap s1 !! l = Some p ∧
  post_heap s2 !! l = Some (PostObject.set_votes (Int (v + 1)) p).
Proof.
  intros Hok Hp Hv Hlo Hhi r s1 s2.
  pose proof (new_array_spec (JsMap.values (posts s)) s)
    as (_ & Hres & _ & Ha & Hposts & Hah & Hph).
  assert (store_ok s1) as Hok1.
  { eapply store_ok_same; [apply (call_same CallQueryPosts)|exact Hok]. }
  assert (has_post s1 (ToNumber postId) l p) as Hp1.
  { destruct Hp as (Hin & Hl & Heq). unfold has_post, s1, Query.posts, array_from.
    rewrite Hposts, Hph. done. }
  destruct (upvotePost_present s1 postId l p Hok1 Hp1)
    as (s' & Heq & Hl & _ & _ & _ & _ & Harr).
  unfold s2. rewrite Heq. simpl.
  split; [exact Hres|]. split; [rewrite Harr; exact Hres|].
  split; [apply Hp|]. split; [apply Hp1|].
  rewrite Hl, Hv, add_one_exact by lia. reflexivity.
Qed.

Lemma listing_shares_post_objects_witness :
  store_ok seed ∧
  post_heap (Mutation.upvotePost (JStr "1") (Query.posts seed).2).2 !! 1%positive
  = Some (PostObject.make (Int 1) (Int 1) "Introduction to GraphQL" (Int 3)).
Proof.
  split; [exact seed_ok|].
  apply (listing_shares_post_objects seed (JStr "1") 1%positive
           (PostObject.make (Int 1) (Int 1) "Introduction to GraphQL" (Int 2)) 2 seed_ok).
  - apply has_post_get; [exact seed_ok | split; vm_compute; reflexivity].
  - reflexivity.
  - vm_compute; discriminate.
  - vm_compute; reflexivity.
Defined.

(** X9.  An array a resolver has returned is never changed: whatever calls
    follow, from any store, the array holds the same references. *)
Theorem arrays_never_change (cs : list Call) (s : Store) (a : loc) (ys : list loc) :
  array_heap s !! a = Some ys → array_heap (run cs s) !! a = Some ys.
Proof.
  intros Ha. induction cs as [|c cs IH] using rev_ind; [exact Ha|].
  rewrite run_snoc. destruct c; cbn [call].
  - apply new_array_keeps, IH.
  - unfold Query.author. destruct (JsMap.get _ _); exact IH.
  - unfold Mutation.upvotePost. destruct (JsMap.get _ _); exact IH.
  - apply (call_keeps_arrays (CallAuthorPosts author)), IH.
  - exact IH.
Qed.

Lemma arrays_never_change_witness :
  array_heap (run [CallUpvotePost (JStr "1"); CallQueryPosts] (Query.posts seed).2)
    !! 1%positive
  = Some [1%positive; 2%positive; 3%positive; 4%positive].
Proof.
  apply (arrays_never_change [CallUpvotePost (JStr "1"); CallQueryPosts]
           (Query.posts seed).2 1%positive).
  vm_compute; reflexivity.
Defined.

(** X10.  What the resolvers find does not depend on the calls made
    before: after any sequence of calls, from any store, [Query.author]
    and [Mutation.upvotePost] complete as they would have (the same
    reference, or the same error), [Post.author] returns the same, and
    [Author.posts] returns an array of the same posts. *)
Theorem lookups_stable_under_calls (cs : list Call) (s : Store) :
  (∀ id, (Query.author id (run cs s)).1 = (Query.author id s).1) ∧
  (∀ postId, (Mutation.upvotePost postId (run cs s)).1
             = (Mutation.upvotePost postId s).1) ∧
  (∀ post, Post.author post (run cs s) = Post.author post s) ∧
  (∀ author,
     array_heap (Author.posts author (run cs s)).2
       !! (Author.posts author (run cs s)).1
     = Some (postsByAuthor s author)).
Proof.
  pose proof (run_same cs s) as Hsame.
  pose proof Hsame as (Ha & Hp & _ & _).
  split; [|split; [|split]].
  - intros id. unfold Query.author. rewrite Ha.
    destruct (JsMap.get (authors s) (ToNumber id)); reflexivity.
  - intros postId. unfold Mutation.upvotePost. rewrite Hp.
    destruct (JsMap.get (posts s) (ToNumber postId)); reflexivity.
  - intros post. unfold Post.author. rewrite Ha. reflexivity.
  - intros author. destruct (Author_posts_array author (run cs s)) as (_ & -> & _).
    f_equal. apply postsByAuthor_same, Hsame.
Qed.

Lemma lookups_stable_under_calls_witness :
  (Query.author (JStr "3") (run [CallUpvotePost (JStr "4"); CallQueryPosts] seed)).1
  = (Query.author (JStr "3") seed).1.
Proof.
  destruct (lookups_stable_under_calls [CallUpvotePost (JStr "4"); CallQueryPosts] seed)
    as [Hauthor _].
  exact (Hauthor (JStr "3")).
Defined.

(** X11.  On a store that meets the data model, an id that [Number] does
    not turn into an integer ([NaN], an infinity, a number with a
    fraction) is never found: [Query.author] and [Mutation.upvotePost]
    throw their not-found errors and leave the store as it was, and
    [Post.author] of a post with such an [authorId] returns [undefined]. *)
Theorem non_integer_id_not_found (s : Store) (id : jsval) :
  store_ok s →
  to_Z (ToNumber id) = None →
  Query.author id s = (Throw (AuthorNotFound id), s) ∧
  Mutation.upvotePost id s = (Throw (PostNotFound id), s) ∧
  ∀ post, PostObject.authorId post = ToNumber id → Post.author post s = None.
Proof.
  intros Hok Hnone.
  assert (JsMap.get (authors s) (ToNumber id) = None) as Hauthors.
  { apply get_None. intros k l Hin.
    destruct (ok_authors s Hok k l Hin) as (_ & _ & _ & [z Hz]).
    destruct (same_value_zero k (ToNumber id)) eqn:Hsv; [|reflexivity].
    apply (same_value_zero_to_Z k _ z Hz) in Hsv. congruence. }
  assert (JsMap.get (posts s) (ToNumber id) = None) as Hposts.
  { apply get_None. intros k l Hin.
    destruct (ok_posts s Hok k l Hin) as (_ & _ & _ & [z Hz]).
    destruct (same_value_zero k (ToNumber id)) eqn:Hsv; [|reflexivity].
    apply (same_value_zero_to_Z k _ z Hz) in Hsv. congruence. }
  split; [|split].
  - unfold Query.author. rewrite Hauthors. reflexivity.
  - unfold Mutation.upvotePost. rewrite Hposts. reflexivity.
  - intros post Hpost. unfold Post.author. rewrite Hpost. exact Hauthors.
Qed.

Lemma non_integer_id_not_found_witness :
  store_ok seed ∧ to_Z (ToNumber (JStr "1.5")) = None ∧
  Query.author (JStr "1.5") seed = (Throw (AuthorNotFound (JStr "1.5")), seed).
Proof.
  split; [exact seed_ok|]. split; [vm_compute; reflexivity|].
  apply (non_integer_id_not_found seed (JStr "1.5") seed_ok).
  vm_compute; reflexivity.
Defined.

(** X12.  On strings of code units below 256, the whitespace characters
    TAB, LF, VT, FF, CR, SP and NBSP around an id are ignored: for every
    such string and every two runs of these characters put before and
    after it, [Number] gives the same number, so [Query.author] and
    [Mutation.upvotePost] with the padded string do what they do with the
    string itself (the same object and store, or the not-found error of
    each). *)
Theorem id_whitespace_ignored (s : Store) (ws1 str ws2 : string) :
  string_forall StringToNumber.is_white_space ws1 = true →
  string_forall StringToNumber.is_white_space ws2 = true →
  let padded := String.append ws1 (String.append str ws2) in
  ToNumber (JStr padded) = ToNumber (JStr str) ∧
  same_behaviour (Query.author (JStr padded) s) (Query.author (JStr str) s)
                 (AuthorNotFound (JStr padded)) (AuthorNotFound (JStr str)) ∧
  same_behaviour (Mutation.upvotePost (JStr padded) s)
                 (Mutation.upvotePost (JStr str) s)
                 (PostNotFound (JStr padded)) (PostNotFound (JStr str)).
Proof.
  intros H1 H2 padded.
  assert (ToNumber (JStr padded) = ToNumber (JStr str)) as Hnum.
  { unfold ToNumber, StringToNumber.string_to_number, padded.
    rewrite trim_padded by assumption. reflexivity. }
  split; [exact Hnum|]. split.
  - unfold same_behaviour, Query.author. rewrite Hnum.
    destruct (JsMap.get (authors s) (ToNumber (JStr str))); [left|right]; eauto.
  - unfold same_behaviour, Mutation.upvotePost. rewrite Hnum.
    destruct (JsMap.get (posts s) (ToNumber (JStr str))); [left|right]; eauto.
Qed.

Lemma id_whitespace_ignored_witness :
  ToNumber (JStr "  2 ") = ToNumber (JStr "2").
Proof.
  apply (id_whitespace_ignored seed "  " "2" " "); reflexivity.
Defined.

(** ** Examples *)

(** The scenarios of the specification: [author(id: "2")] with its first
    name and the titles of its posts, and the votes of post 1 after
    [upvotePost(postId: "1")]. *)
Example scenario_author_2 :
  Query.author (JStr "2") seed = (Return 2%positive, seed) ∧
  author_heap seed !! 2%positive = Some (AuthorObject.make (Int 2) "Sashko" "Stubailo") ∧
  array_heap (Author.posts (AuthorObject.make (Int 2) "Sashko" "Stubailo") seed).2
    !! (Author.posts (AuthorObject.make (Int 2) "Sashko" "Stubailo") seed).1
  = Some [2%positive; 3%positive] ∧
  PostObject.title <$> post_heap seed !! 2%positive = Some "Welcome to Meteor"%string ∧
  PostObject.title <$> post_heap seed !! 3%positive = Some "Advanced GraphQL"%string.
Proof. vm_compute. done. Qed.

Example scenario_upvote_1 :
  PostObject.votes <$> post_heap (Mutation.upvotePost (JStr "1") seed).2 !! 1%positive
  = Some (Int 3).
Proof. vm_compute. reflexivity. Qed.

Example scenario_author_7 :
  Query.author (JStr "7") seed = (Throw (AuthorNotFound (JStr "7")), seed).
Proof. vm_compute. reflexivity. Qed.

Example scenario_two_listings :
  (Query.posts seed).1 = 1%positive ∧ (Query.posts (Query.posts seed).2).1 = 2%positive.
Proof. vm_compute. done. Qed.

(** Binary64 rounding: [0.1], the least positive value, the greatest
    finite value and the overflow threshold, and the sums around [2^53]. *)
Example round_one_tenth : round_signed 1 10 = Frac 3602879701896397 55.
Proof. vm_compute. reflexivity. Qed.

Example round_least_positive : round_signed 5 (10 ^ 324) = Frac 1 1074.
Proof. vm_compute. reflexivity. Qed.

Example round_underflow : round_signed 2 (10 ^ 324) = Int 0.
Proof. vm_compute. reflexivity. Qed.

Example round_greatest_finite :
  round_signed (17976931348623157 * 10 ^ 292) 1 = Int ((2 ^ 53 - 1) * 2 ^ 971).
Proof. vm_compute. reflexivity. Qed.

Example round_overflow : round_signed (17976931348623159 * 10 ^ 292) 1 = Inf false.
Proof. vm_compute. reflexivity. Qed.

Example add_above_two53 : add (Int (two53 + 2)) (Int 1) = Int (two53 + 4).
Proof. vm_compute. reflexivity. Qed.

Example add_halves : add (Frac 1 1) (Frac 1 1) = Int 1.
Proof. vm_compute. reflexivity. Qed.

Example add_to_zero : add (Int (-1)) (Int 1) = Int 0.
Proof. vm_compute. reflexivity. Qed.

(** [Number] on strings. *)
Example Number_of_strings :
  ToNumber (JStr "2") = Int 2 ∧ ToNumber (JStr " 2 ") = Int 2 ∧
  ToNumber (JStr "") = Int 0 ∧ ToNumber (JStr "   ") = Int 0 ∧
  ToNumber (JStr "00012") = Int 12 ∧ ToNumber (JStr "1.0") = Int 1 ∧
  ToNumber (JStr "1.") = Int 1 ∧ ToNumber (JStr ".5") = Frac 1 1 ∧
  ToNumber (JStr "1e0") = Int 1 ∧ ToNumber (JStr "1E2") = Int 100 ∧
  ToNumber (JStr "1e+2") = Int 100 ∧ ToNumber (JStr "25e-1") = Frac 5 1 ∧
  ToNumber (JStr "+.5e1") = Int 5 ∧ ToNumber (JStr "-0") = NegZero ∧
  ToNumber (JStr "0x1F") = Int 31 ∧ ToNumber (JStr "0X1f") = Int 31 ∧
  ToNumber (JStr "0b101") = Int 5 ∧ ToNumber (JStr "0o17") = Int 15 ∧
  ToNumber (JStr "-Infinity") = Inf true ∧ ToNumber (JStr "0.1") = Frac 3602879701896397 55 ∧
  ToNumber (JStr "1e-400") = Int 0 ∧ ToNumber (JStr "-1e-400") = NegZero ∧
  ToNumber (JStr "1.0000000000000000001") = Int 1 ∧
  ToNumber (JStr "9007199254740993") = Int 9007199254740992.
Proof. vm_compute. repeat split. Qed.

Example Number_of_strings_NaN :
  ToNumber (JStr "abc") = NaN ∧ ToNumber (JStr "1 2") = NaN ∧
  ToNumber (JStr ".") = NaN ∧ ToNumber (JStr "+") = NaN ∧
  ToNumber (JStr "1e") = NaN ∧ ToNumber (JStr "e5") = NaN ∧
  ToNumber (JStr "0x") = NaN ∧ ToNumber (JStr "-0x1F") = NaN ∧
  ToNumber (JStr "12abc") = NaN ∧ ToNumber (JStr "1,5") = NaN ∧
  ToNumber (JStr "infinity") = NaN.
Proof. vm_compute. repeat split. Qed.

Example decimal_string_examples :
  decimal_string (-120) = "-120"%string ∧ decimal_string 0 = "0"%string ∧
  decimal_string 4 = "4"%string.
Proof. vm_compute. repeat split. Qed.

(** [String] on numbers, and the message of an error. *)
Example String_of_numbers :
  ToString (JNum (Int 7)) = "7"%string ∧
  ToString (JNum (Int (-120))) = "-120"%string ∧
  ToString (JNum (Frac 3602879701896397 55)) = "0.1"%string ∧
  ToString (JNum (Frac 3 1)) = "1.5"%string ∧
  ToString (JNum (Int (10 ^ 21))) = "1e+21"%string ∧
  ToString (JNum (Int (2 ^ 60))) = "1152921504606847000"%string ∧
  ToString (JNum (Frac 1 1074)) = "5e-324"%string ∧
  ToString (JNum NegZero) = "0"%string ∧ ToString (JNum NaN) = "NaN"%string.
Proof. vm_compute. repeat split. Qed.

Example message_of_not_found :
  message (AuthorNotFound (JNum (Int 7))) = "Oops! Author with ID 7 not found."%string ∧
  message (AuthorNotFound (JStr "7")) = "Oops! Author with ID 7 not found."%string ∧
  message (PostNotFound (JStr "abc")) = "Post with ID abc not found."%string.
Proof. vm_compute. repeat split. Qed.
